(** * gouda: barcode decoding driver, region decoder and output sinks

    A shallow embedding of
      - [gouda/scripts/decode_barcodes.py]: the traversal driver [decode],
        the report sinks and the [RenameVisitor] sink;
      - [gouda/strategies/roi/decode.py]: the region [Decoder].

    Python objects with mutable state are modelled by explicit state
    passing; exceptions by the [Res] result type.  Calls into OpenCV,
    the barcode engine, the image loader and the strategies are section
    variables: they are collaborators whose code is not part of the
    two files above. *)

From Stdlib Require Import ZArith QArith List String Ascii Lia Permutation Sorted.
From stdpp Require Import base tactics option list sorting gmap strings pretty.

Set Default Proof Using "Type".

(** ** Values shared by the two files *)

(** Python [bytes]. *)
Definition bytes := list Byte.byte.

(** [gouda.barcode.Barcode(type, data)]. *)
Record Barcode := mkBarcode { b_type : string; b_data : bytes }.

(** Results of a call that may raise.  [Exn] stands for an instance of
    Python's [Exception] (what [except Exception] catches), identified by
    its message. *)
Definition Exn := string.

Inductive Res (A : Type) : Type :=
| Ok (a : A)
| Raise (e : Exn).
Arguments Ok {A} a.
Arguments Raise {A} e.

Global Instance Res_ret : MRet Res := λ A a, Ok a.
Global Instance Res_bind : MBind Res := λ A B f r,
  match r with
  | Ok a => f a
  | Raise e => Raise e
  end.

(** State-and-exception monad: side effects that happened before a
    [Raise] stay in the state, as in Python. *)
Definition M (S A : Type) : Type := S → Res A * S.

Global Instance M_ret {S} : MRet (M S) := λ A a s, (Ok a, s).
Global Instance M_bind {S} : MBind (M S) := λ A B f m s,
  match m s with
  | (Ok a, s') => f a s'
  | (Raise e, s') => (Raise e, s')
  end.

Definition raise {S A} (e : Exn) : M S A := λ s, (Raise e, s).

(** [try: body / except Exception: handler]. *)
Definition try_except {S A} (body : M S A) (handler : Exn → M S A) : M S A :=
  λ s, match body s with
       | (Ok a, s') => (Ok a, s')
       | (Raise e, s') => handler e s'
       end.

(** [for x in xs: body(x)]: an exception leaves the loop. *)
Fixpoint for_each {S A} (xs : list A) (body : A → M S unit) : M S unit :=
  match xs with
  | [] => mret tt
  | x :: xs' => _ ← body x; for_each xs' body
  end.

(** * The region decoder, [gouda/strategies/roi/decode.py]

    Pixels are integers; the OpenCV calls of the contrast step are
    written out on 8-bit values, the blur, the weighted sum and the grey
    conversion are variables, and each of them returns an array or
    raises.  [debug_print] writes to the console only and has no
    counterpart here. *)
Module Roi.
Local Open Scope Z_scope.

(** A numpy array as the decoder uses it: element type, shape, and the
    elements row by row (a row of a 2-D array is a list of pixels). *)
Record ndarray := mkArray {
  dtype : string;
  shape : list nat;
  rows : list (list Z)
}.

(** [rect.coordinates] is the tuple [(left, top, right, bottom)]. *)
Record Rect := mkRect { left : Z; top : Z; right : Z; bottom : Z }.
Definition coordinates (r : Rect) : Z * Z * Z * Z :=
  (left r, top r, right r, bottom r).

(** What the engine returns for one symbol: an object with [.type]
    and [.data]. *)
Record Symbol := mkSymbol { s_type : string; s_data : bytes }.

(** *** numpy and OpenCV operations on unsigned 8-bit arrays *)

(** Python's [a[i:j]] on a sequence. *)
Definition slice_index (i len : Z) : Z :=
  if i <? 0 then Z.max 0 (i + len) else Z.min i len.

Definition slice {A} (i j : Z) (l : list A) : list A :=
  let len := Z.of_nat (length l) in
  let lo := slice_index i len in
  let hi := slice_index j len in
  take (Z.to_nat (hi - lo)) (drop (Z.to_nat lo) l).

(** [img[top:bottom, left:right]] on a 2-D array: the image is
    single-channel here, lines 32-34 have converted any other. *)
Definition crop2d (img : ndarray) (t b l r : Z) : ndarray :=
  let rs := (λ row : list Z, slice l r row) <$> slice t b (rows img) in
  {| dtype := dtype img;
     shape := [length rs; default 0%nat (length <$> head rs)];
     rows := rs |}.

(** [cv::saturate_cast<uchar>]. *)
Definition saturate_u8 (x : Z) : Z := Z.max 0 (Z.min 255 x).

Definition map_px (f : Z → Z) (a : ndarray) : ndarray :=
  {| dtype := dtype a; shape := shape a; rows := (λ row : list Z, f <$> row) <$> rows a |}.

Definition zip_px (f : Z → Z → Z) (a b : ndarray) : ndarray :=
  {| dtype := dtype a; shape := shape a;
     rows := zip_with (zip_with f) (rows a) (rows b) |}.

(** [cv2.compare(src, np.uint8([v]), cv2.CMP_GE)]: 255 where the test
    holds, 0 elsewhere. *)
Definition compare_GE (src : ndarray) (v : Z) : ndarray :=
  map_px (λ p, if v <=? p then 255 else 0) src.

(** [cv2.bitwise_not] on 8-bit elements. *)
Definition bitwise_not (src : ndarray) : ndarray :=
  map_px (λ p, Z.land (Z.lnot p) 255) src.

(** [cv2.add(src, v, mask=mask)] and [cv2.subtract(src, v, mask=mask)]
    with a freshly allocated destination: elements outside the mask
    are zero. *)
Definition add_scalar_masked (src : ndarray) (v : Z) (mask : ndarray) : ndarray :=
  zip_px (λ p m, if m =? 0 then 0 else saturate_u8 (p + v)) src mask.

Definition subtract_scalar_masked (src : ndarray) (v : Z) (mask : ndarray) : ndarray :=
  zip_px (λ p m, if m =? 0 then 0 else saturate_u8 (p - v)) src mask.

(** [cv2.add(a, b)]. *)
Definition add (a b : ndarray) : ndarray :=
  zip_px (λ x y, saturate_u8 (x + y)) a b.

(** Lines 52-56 of [_compute_barcodes], on the pixels of an unsigned
    8-bit crop. *)
Definition contrast (crop : ndarray) : ndarray :=
  let bigmask := compare_GE crop 0x80 in
  let smallmask := bitwise_not bigmask in
  let big := add_scalar_masked crop 0x10 bigmask in
  let small := subtract_scalar_masked crop 0x5a smallmask in
  add big small.

(** OpenCV takes an operand that has the size of one of its scalars for
    an array: a crop of one element, or of four elements in a column or
    a row, meets the operands [np.uint8([0x80])], [0x10] and [0x5a] of
    lines 52-55 on other terms than a larger crop. *)
Definition scalar_like (h w : nat) : bool :=
  (((h =? 1) || (h =? 4)) && (w =? 1) || (h =? 1) && (w =? 4))%nat.

(** [a] is a two-dimensional unsigned 8-bit array of [h] rows of [w]
    elements. *)
Definition u8_of_shape (a : ndarray) (h w : nat) : bool :=
  String.eqb (dtype a) "uint8" && bool_decide (shape a = [h; w]) &&
  (length (rows a) =? h)%nat && forallb (λ row, (length row =? w)%nat) (rows a).

(** The crops on which lines 52-56 are written out as [contrast]: not
    empty, unsigned 8-bit, and not of the size of a scalar. *)
Definition regular_u8 (a : ndarray) : bool :=
  match shape a with
  | [h; w] =>
      u8_of_shape a h w && (0 <? h)%nat && (0 <? w)%nat && negb (scalar_like h w)
  | _ => false
  end.

Section Decoder.
(** The engine is a callable with private state [E] that returns the
    symbols it reads, or raises; the calls made to it are recorded with
    their argument and their outcome.  The OpenCV calls return an array
    or raise [cv2.error]: the grey conversion on an image that does not
    have three or four channels, the blur on an empty crop.
    [contrast_elsewhere] is what lines 52-56 compute on a crop that is
    neither regular nor a column of four, where the element type or the
    OpenCV version decides. *)
Context {E : Type}.
Variable engine : ndarray → E → Res (list Symbol) * E.
Variable cvtColor_BGR2GRAY : ndarray → Res ndarray.
Variable GaussianBlur : ndarray → Z * Z → Z → Res ndarray.
Variable addWeighted : ndarray → Q → ndarray → Q → Z → Res ndarray.
Variable contrast_elsewhere : ndarray → Res ndarray.

Record EngineState := mkES {
  engine_state : E;
  calls : list (ndarray * Res (list Symbol))
}.

Local Abbreviation St := (M EngineState).

Definition lift_res {A} (r : Res A) : St A := λ s, (r, s).

(** [self._engine(crop)]. *)
Definition call_engine (crop : ndarray) : St (list Symbol) := λ s,
  let '(decoded, e') := engine crop (engine_state s) in
  (decoded, {| engine_state := e'; calls := calls s ++ [(crop, decoded)] |}).

(** The [Decoder] object: [_barcodes] is [None] until computed. *)
Record Decoder := mkDecoder {
  _img : ndarray;
  _candidates : list Rect;
  _barcodes : option (list Barcode)
}.

(** [Decoder.__init__]. *)
Definition init (img : ndarray) (candidates : list Rect) : Decoder :=
  {| _img := img; _candidates := candidates; _barcodes := None |}.

(** Lines 38-43: crop and unsharp mask. *)
Definition sharpened (img : ndarray) (rect : Rect) : Res ndarray :=
  let '(left, top, right, bottom) := coordinates rect in
  let crop := crop2d img top bottom left right in
  blur ← GaussianBlur crop (0, 0) 10;
  addWeighted crop (3 # 2)%Q blur (- (1 # 2))%Q 0.

(** Lines 52-56 as OpenCV runs them.  On a regular crop they compute
    [contrast].  On a column of four unsigned 8-bit pixels the masked
    [cv2.add(crop, 0x10, mask=bigmask)] of line 54 raises: the binding
    passes the number as a column of four doubles, which OpenCV then
    takes for an array of another type than the crop's. *)
Definition apply_contrast (crop : ndarray) : Res ndarray :=
  if regular_u8 crop then Ok (contrast crop)
  else if u8_of_shape crop 4 1
       then Raise "cv2.error: the output array type must be explicitly specified"
       else contrast_elsewhere crop.

(** Lines 38-57: the symbols decoded for one candidate. *)
Definition decode_candidate (img : ndarray) (rect : Rect) : St (list Symbol) :=
  crop ← lift_res (sharpened img rect);
  decoded ← call_engine crop;
  match decoded with
  | [] =>
      crop ← lift_res (apply_contrast crop);
      call_engine crop
  | _ :: _ => mret decoded
  end.

(** [Barcode(b.type, b.data)]. *)
Definition to_barcode (b : Symbol) : Barcode :=
  mkBarcode (s_type b) (s_data b).

(** The [for rect in self._candidates] loop, with [res] threaded. *)
Fixpoint candidates_loop (img : ndarray) (cands : list Rect)
    (res : list Barcode) : St (list Barcode) :=
  match cands with
  | [] => mret res
  | rect :: cands' =>
      decoded ← decode_candidate img rect;
      let res := res ++ (to_barcode <$> decoded) in
      candidates_loop img cands' res
  end.

Definition needs_grey (img : ndarray) : bool :=
  negb (String.eqb "uint8" (dtype img)) || negb (2 =? length (shape img))%nat.

(** Lines 31-34: the image the candidates are cut from. *)
Definition grey (img : ndarray) : Res ndarray :=
  if needs_grey img then cvtColor_BGR2GRAY img else Ok img.

Definition _compute_barcodes (self : Decoder) : St (list Barcode) :=
  img ← lift_res (grey (_img self));
  candidates_loop img (_candidates self) [].

(** [Decoder.__iter__]: the sequence iterated, and the object after
    the call. *)
Definition __iter__ (self : Decoder) : St (list Barcode * Decoder) :=
  match _barcodes self with
  | None =>
      bs ← _compute_barcodes self;
      mret (bs, {| _img := _img self; _candidates := _candidates self;
                   _barcodes := Some bs |})
  | Some bs => mret (bs, self)
  end.

(** The contrast remap in the words of the specification: bright
    pixels gain [0x10], dark pixels lose [0x5a], clamped to the
    8-bit range. *)
Definition remap_spec (p : Z) : Z :=
  if 0x80 <=? p then Z.min 255 (p + 0x10) else Z.max 0 (p - 0x5a).

(** The calls of the engine for one candidate, from the engine's state
    [e]: on the sharpened crop and, when the engine reads nothing there,
    once more on the remapped crop.  [run] lists the calls with the
    symbols returned, [group] is the answer kept for the candidate, [e']
    the engine's state afterwards. *)
Inductive candidate_run (img : ndarray) (rect : Rect) (e : E) :
    list (ndarray * list Symbol) → list Symbol → E → Prop :=
| run_found crop b group e' :
    sharpened img rect = Ok crop →
    engine crop e = (Ok (b :: group), e') →
    candidate_run img rect e [(crop, b :: group)] (b :: group) e'
| run_remapped crop e1 crop' group e' :
    sharpened img rect = Ok crop →
    engine crop e = (Ok [], e1) →
    apply_contrast crop = Ok crop' →
    engine crop' e1 = (Ok group, e') →
    candidate_run img rect e [(crop, []); (crop', group)] group e'.

(** The calls for the candidates in turn, the engine's state passed
    on from one to the next. *)
Inductive candidates_run (img : ndarray) :
    list Rect → E → list (list (ndarray * list Symbol)) →
    list (list Symbol) → E → Prop :=
| runs_nil e : candidates_run img [] e [] [] e
| runs_cons rect cands e run group e1 runs groups e' :
    candidate_run img rect e run group e1 →
    candidates_run img cands e1 runs groups e' →
    candidates_run img (rect :: cands) e (run :: runs) (group :: groups) e'.

(** Calls that returned, as the record of calls has them. *)
Definition logged (run : list (ndarray * list Symbol)) :
    list (ndarray * Res (list Symbol)) :=
  (λ c, (c.1, Ok c.2)) <$> run.

(** *** Properties *)

Lemma contrast_pixel (p : Z) :
  saturate_u8
    ((if (if 0x80 <=? p then 255 else 0) =? 0 then 0 else saturate_u8 (p + 0x10)) +
     (if Z.land (Z.lnot (if 0x80 <=? p then 255 else 0)) 255 =? 0
      then 0 else saturate_u8 (p - 0x5a)))
  = remap_spec p.
Proof.
  unfold remap_spec, saturate_u8.
  destruct (Z.leb_spec 0x80 p); simpl; lia.
Qed.

Lemma contrast_rows (crop : ndarray) :
  rows (contrast crop) = (λ row : list Z, remap_spec <$> row) <$> rows crop.
Proof.
  unfold contrast, add, add_scalar_masked, subtract_scalar_masked,
    bitwise_not, compare_GE, zip_px, map_px; simpl.
  induction (rows crop) as [|row rs IH]; simpl; [done|].
  f_equal; [|exact IH].
  clear IH. induction row as [|p row IH]; simpl; [done|].
  f_equal; [|exact IH]. apply contrast_pixel.
Qed.

Lemma remap_spec_range (p : Z) : 0 ≤ remap_spec p ≤ 255.
Proof. unfold remap_spec. destruct (Z.leb_spec 0x80 p); lia. Qed.


(** When the first attempt finds symbols the crop is not remapped
    and the engine is called once. *)
Lemma decode_candidate_first (img : ndarray) (rect : Rect) (s : EngineState)
    (crop : ndarray) (b : Symbol) (group : list Symbol) (e' : E) :
  sharpened img rect = Ok crop →
  engine crop (engine_state s) = (Ok (b :: group), e') →
  decode_candidate img rect s =
    (Ok (b :: group),
     {| engine_state := e'; calls := calls s ++ [(crop, Ok (b :: group))] |}).
Proof.
  intros Hcrop Hcall. unfold decode_candidate, mbind, M_bind, lift_res, call_engine.
  by rewrite Hcrop, Hcall.
Qed.

(** *** The answers of the engine and the output *)

Lemma state_eq (s : EngineState) e l :
  engine_state s = e → calls s = l → s = {| engine_state := e; calls := l |}.
Proof. destruct s. simpl. by intros -> ->. Qed.

(** One candidate returns a group exactly when the calls of its run
    return, and the record of calls grows by that run. *)
Lemma decode_candidate_run (img : ndarray) (rect : Rect) (s s' : EngineState)
    (group : list Symbol) :
  decode_candidate img rect s = (Ok group, s') ↔
  ∃ run, candidate_run img rect (engine_state s) run group (engine_state s') ∧
         calls s' = calls s ++ logged run.
Proof.
  unfold decode_candidate, mbind, M_bind, lift_res, call_engine. split.
  - destruct (sharpened img rect) as [crop|ex] eqn:Hcrop; [|done].
    destruct (engine crop (engine_state s)) as [[d|ex] e1] eqn:Hcall; [|done].
    destruct d as [|b d].
    + destruct (apply_contrast crop) as [crop'|ex] eqn:Hremap; [|done]. simpl.
      destruct (engine crop' e1) as [[d2|ex] e2] eqn:Hcall2; [|done].
      intros [= <- <-]. simpl. eexists. split.
      * by eapply run_remapped.
      * by rewrite <- app_assoc.
    + intros [= <- <-]. simpl. eexists. split; [by eapply run_found | done].
  - intros (run & Hrun & Hcalls).
    inversion Hrun as [crop b g e' Hcrop Hcall | crop e1 crop' g e' Hcrop Hcall Hremap Hcall2];
      subst.
    + rewrite Hcrop, Hcall. simpl. unfold mret, M_ret.
      f_equal. symmetry. by apply state_eq.
    + rewrite Hcrop, Hcall. simpl. rewrite Hremap, Hcall2. simpl.
      f_equal. symmetry. apply state_eq; [done|].
      by rewrite Hcalls, <- app_assoc.
Qed.

Lemma candidates_loop_run (img : ndarray) (cands : list Rect)
    (res bs : list Barcode) (s s' : EngineState) :
  candidates_loop img cands res s = (Ok bs, s') ↔
  ∃ runs groups,
    candidates_run img cands (engine_state s) runs groups (engine_state s') ∧
    calls s' = calls s ++ logged (concat runs) ∧
    bs = res ++ (to_barcode <$> concat groups).
Proof.
  revert res s. induction cands as [|rect cands IH]; intros res s; simpl.
  - split.
    + intros [= <- <-]. exists [], []. rewrite !app_nil_r.
      split_and!; [constructor | done..].
    + intros (runs & groups & Hruns & Hcalls & ->).
      inversion Hruns; subst. simpl in *. rewrite app_nil_r in *.
      unfold mret, M_ret. f_equal. destruct s, s'; simpl in *; congruence.
  - unfold mbind, M_bind. split.
    + destruct (decode_candidate img rect s) as [[g|ex] s1] eqn:Hg; [|done].
      apply decode_candidate_run in Hg as (run & Hrun & Hc1).
      intros Hrest. apply IH in Hrest as (runs & groups & Hruns & Hc2 & ->).
      exists (run :: runs), (g :: groups). split_and!.
      * by econstructor.
      * simpl. unfold logged in *. by rewrite Hc2, Hc1, fmap_app, app_assoc.
      * simpl. by rewrite fmap_app, app_assoc.
    + intros (runs & groups & Hruns & Hcalls & ->).
      inversion Hruns as [|? ? ? run g e1 runs' groups' ? Hrun Hrest]; subst.
      assert (decode_candidate img rect s =
                (Ok g, {| engine_state := e1; calls := calls s ++ logged run |}))
        as ->.
      { apply decode_candidate_run. by exists run. }
      apply IH. exists runs', groups'. split_and!; [done | |].
      * simpl in *. unfold logged in *. by rewrite Hcalls, fmap_app, app_assoc.
      * simpl. by rewrite fmap_app, app_assoc.
Qed.

Lemma candidates_run_length (img : ndarray) cands e runs groups e' :
  candidates_run img cands e runs groups e' →
  length runs = length cands ∧ length groups = length cands.
Proof. induction 1 as [|? ? ? ? ? ? ? ? ? _ _ [IH1 IH2]]; simpl; [done | by rewrite IH1, IH2]. Qed.

(** C7. The decoder returns a sequence exactly when the grey
    conversion, the crops and the calls of the engine for the
    candidates, taken in order, all return; the sequence then is, for
    each candidate in candidate order, the symbols that the engine
    returned for it, in the engine's order, each as a [Barcode] with the
    symbol's type and data. *)
Theorem compute_barcodes_concat (self : Decoder) (s s' : EngineState)
    (bs : list Barcode) :
  _compute_barcodes self s = (Ok bs, s') ↔
  ∃ img runs groups,
    grey (_img self) = Ok img ∧
    candidates_run img (_candidates self) (engine_state s) runs groups
      (engine_state s') ∧
    length groups = length (_candidates self) ∧
    calls s' = calls s ++ logged (concat runs) ∧
    bs = (λ sym, mkBarcode (s_type sym) (s_data sym)) <$> concat groups.
Proof.
  unfold _compute_barcodes, mbind, M_bind, lift_res. split.
  - destruct (grey (_img self)) as [img|ex]; [|done].
    intros Hloop. apply candidates_loop_run in Hloop
      as (runs & groups & Hruns & Hcalls & ->).
    exists img, runs, groups.
    split_and!; [done | done | | done | done].
    by apply candidates_run_length in Hruns as [_ ?].
  - intros (img & runs & groups & -> & Hruns & _ & Hcalls & ->).
    apply candidates_loop_run. by exists runs, groups.
Qed.

(** C6. An iteration that returns leaves the sequence in the decoder,
    and iterating the decoder again returns the same sequence with the
    engine and the record of its calls unchanged, also when the
    sequence is empty.  Only the first iteration computes, and it is
    the only one that can raise: the decoder then holds no sequence. *)
Theorem iter_cached (self : Decoder) (s : EngineState) :
  match __iter__ self s with
  | (Ok (bs, self1), s1) =>
      _barcodes self1 = Some bs ∧
      (_barcodes self = None → _compute_barcodes self s = (Ok bs, s1)) ∧
      (is_Some (_barcodes self) → self1 = self ∧ s1 = s) ∧
      __iter__ self1 s1 = (Ok (bs, self1), s1)
  | (Raise ex, s1) =>
      _barcodes self = None ∧ _compute_barcodes self s = (Raise ex, s1)
  end.
Proof.
  unfold __iter__. destruct (_barcodes self) as [bs|] eqn:Hb.
  - simpl. rewrite Hb. split_and!; [done | done | done | done].
  - unfold mbind, M_bind.
    destruct (_compute_barcodes self s) as [[bs|ex] s1]; simpl; [|done].
    split_and!; [done | done | by intros [? ?] | done].
Qed.

(** A decoder whose computation found nothing keeps the empty
    sequence: the test is [is None], not emptiness. *)
Lemma iter_cached_empty (self : Decoder) (s : EngineState) :
  _barcodes self = Some [] → __iter__ self s = (Ok ([], self), s).
Proof. intros Hb. unfold __iter__. by rewrite Hb. Qed.

(** *** Further properties of the decoder *)

(** One candidate costs at most two calls of the engine, and at least
    one when it returns; each is on the sharpened crop of the candidate
    or on its remap. *)
Lemma decode_candidate_cost (img : ndarray) (rect : Rect) (s : EngineState) :
  ∃ new,
    calls (decode_candidate img rect s).2 = calls s ++ new ∧
    (length new ≤ 2)%nat ∧
    (∀ g, (decode_candidate img rect s).1 = Ok g → (1 ≤ length new)%nat) ∧
    Forall (λ c : ndarray * Res (list Symbol),
              ∃ crop, sharpened img rect = Ok crop ∧
                      (c.1 = crop ∨ apply_contrast crop = Ok c.1)) new.
Proof.
  unfold decode_candidate, mbind, M_bind, lift_res, call_engine.
  destruct (sharpened img rect) as [crop|ex] eqn:Hcrop; simpl.
  2:{ exists []. rewrite app_nil_r. split_and!; [done | simpl; lia | done | constructor]. }
  destruct (engine crop (engine_state s)) as [[d|ex] e1]; simpl.
  2:{ eexists [_]. split_and!; [done | simpl; lia | done |].
      constructor; [|constructor]. exists crop. split; [done | by left]. }
  destruct d as [|b d]; simpl.
  - destruct (apply_contrast crop) as [crop'|ex] eqn:Hremap; simpl.
    + destruct (engine crop' e1) as [d2 e2]; simpl.
      eexists [_; _]. rewrite <- app_assoc.
      split_and!; [by destruct d2 | simpl; lia | intros; simpl; lia |].
      constructor; [exists crop; split; [done | by left]|].
      constructor; [exists crop; split; [done | by right]|]. constructor.
    + eexists [_]. split_and!; [done | simpl; lia | done |].
      constructor; [|constructor]. exists crop. split; [done | by left].
  - eexists [_]. split_and!; [done | simpl; lia | intros; simpl; lia |].
    constructor; [|constructor]. exists crop. split; [done | by left].
Qed.

Lemma candidates_loop_cost (img : ndarray) (cands : list Rect)
    (res : list Barcode) (s : EngineState) :
  ∃ new,
    calls (candidates_loop img cands res s).2 = calls s ++ new ∧
    (length new ≤ 2 * length cands)%nat ∧
    (∀ bs, (candidates_loop img cands res s).1 = Ok bs →
           (length cands ≤ length new)%nat) ∧
    Forall (λ c : ndarray * Res (list Symbol),
              ∃ rect crop, rect ∈ cands ∧ sharpened img rect = Ok crop ∧
                           (c.1 = crop ∨ apply_contrast crop = Ok c.1))
           new.
Proof.
  revert res s. induction cands as [|rect cands IH]; intros res s; simpl.
  - exists []. rewrite app_nil_r. split_and!; [done | simpl; lia.. | constructor].
  - destruct (decode_candidate_cost img rect s) as (new1 & Hc1 & Hhi1 & Hlo1 & Hall1).
    assert (Forall (λ c : ndarray * Res (list Symbol),
              ∃ r crop, r ∈ rect :: cands ∧ sharpened img r = Ok crop ∧
                        (c.1 = crop ∨ apply_contrast crop = Ok c.1)) new1) as Hall1'.
    { eapply Forall_impl; [exact Hall1|]. intros c (crop & Hcrop & Hc).
      exists rect, crop. split_and!; [left | done | done]. }
    unfold mbind, M_bind.
    destruct (decode_candidate img rect s) as [[g|ex] s1]; simpl in *.
    + destruct (IH (res ++ (to_barcode <$> g)) s1) as (new2 & Hc2 & Hhi2 & Hlo2 & Hall2).
      exists (new1 ++ new2). rewrite Hc2, Hc1, app_assoc, length_app.
      split_and!; [done | lia | |].
      * intros bs Hbs. specialize (Hlo1 g eq_refl). specialize (Hlo2 bs Hbs). lia.
      * apply Forall_app. split; [done|].
        eapply Forall_impl; [exact Hall2|]. intros c (r & crop & Hr & Hcrop & Hc).
        exists r, crop. split_and!; [by right | done | done].
    + exists new1. split_and!; [done | lia | done | done].
Qed.

(** X1. Computing the barcodes of [n] candidates calls the engine at
    most [2n] times, and at least [n] times when the computation
    returns; every call is on the sharpened crop of one of the
    candidates or on the remap of that crop.  Without candidates the
    engine is not called. *)
Theorem engine_calls_bounded (self : Decoder) (s : EngineState) :
  ∃ new,
    calls (_compute_barcodes self s).2 = calls s ++ new ∧
    (length new ≤ 2 * length (_candidates self))%nat ∧
    (∀ bs, (_compute_barcodes self s).1 = Ok bs →
           (length (_candidates self) ≤ length new)%nat) ∧
    Forall (λ c : ndarray * Res (list Symbol),
              ∃ img rect crop,
                grey (_img self) = Ok img ∧ rect ∈ _candidates self ∧
                sharpened img rect = Ok crop ∧
                (c.1 = crop ∨ apply_contrast crop = Ok c.1))
           new ∧
    (_candidates self = [] → new = []).
Proof.
  unfold _compute_barcodes, mbind, M_bind, lift_res.
  destruct (grey (_img self)) as [img|ex]; simpl.
  - destruct (candidates_loop_cost img (_candidates self) [] s)
      as (new & Hc & Hhi & Hlo & Hall).
    exists new. split_and!; [done | done | done | |].
    + eapply Forall_impl; [exact Hall|]. intros c (r & crop & ? & ? & ?).
      by exists img, r, crop.
    + intros Hnil. rewrite Hnil in Hhi. simpl in Hhi. destruct new; [done | simpl in Hhi; lia].
  - exists []. rewrite app_nil_r.
    split_and!; [done | simpl; lia | done | constructor | done].
Qed.

(** The contrast step keeps the element type, the shape and the
    dimensions of the crop: as many rows, each as long as before. *)
Lemma contrast_keeps_shape (crop : ndarray) :
  dtype (contrast crop) = dtype crop ∧
  shape (contrast crop) = shape crop ∧
  length <$> rows (contrast crop) = length <$> rows crop.
Proof.
  split_and!; [done..|]. rewrite contrast_rows.
  rewrite <- list_fmap_compose. apply list_fmap_ext.
  intros i row _. simpl. by rewrite length_fmap.
Qed.

(** The pixel in row [i], column [j]. *)
Definition pixel (a : ndarray) (i j : nat) : option Z :=
  rows a !! i ≫= λ row, row !! j.

Lemma pixel_contrast (crop : ndarray) (i j : nat) :
  pixel (contrast crop) i j = remap_spec <$> pixel crop i j.
Proof.
  unfold pixel. rewrite contrast_rows, list_lookup_fmap.
  destruct (rows crop !! i) as [row|]; simpl; [|done].
  by rewrite list_lookup_fmap.
Qed.


Lemma slice_in_bounds {A} (lo hi : Z) (l : list A) :
  0 ≤ lo → lo ≤ hi → hi ≤ Z.of_nat (length l) →
  slice lo hi l = take (Z.to_nat (hi - lo)) (drop (Z.to_nat lo) l).
Proof.
  intros Hlo Hhi Hlen. unfold slice, slice_index.
  rewrite !(proj2 (Z.ltb_ge _ _)) by lia.
  by rewrite !Z.min_l by lia.
Qed.

(** X3. For a rectangle inside a rectangular image the crop has
    [bottom - top] rows of [right - left] pixels, and its pixel
    [(i, j)] is the pixel [(top + i, left + j)] of the image. *)
Theorem crop_in_bounds (img : ndarray) (rect : Rect) (width : nat)
    (Hrows : Forall (λ row, length row = width) (rows img))
    (Hvert : 0 ≤ top rect ∧ top rect ≤ bottom rect ∧
             bottom rect ≤ Z.of_nat (length (rows img)))
    (Hhoriz : 0 ≤ left rect ∧ left rect ≤ right rect ∧
              right rect ≤ Z.of_nat width) :
  let crop := crop2d img (top rect) (bottom rect) (left rect) (right rect) in
  length (rows crop) = Z.to_nat (bottom rect - top rect) ∧
  Forall (λ row, length row = Z.to_nat (right rect - left rect)) (rows crop) ∧
  ∀ i j, (i < Z.to_nat (bottom rect - top rect))%nat →
         (j < Z.to_nat (right rect - left rect))%nat →
         pixel crop i j = pixel img (Z.to_nat (top rect) + i) (Z.to_nat (left rect) + j).
Proof.
  intros crop. destruct Hvert as (Ht & Htb & Hb), Hhoriz as (Hl & Hlr & Hr).
  assert (rows crop =
    (λ row : list Z, take (Z.to_nat (right rect - left rect))
                       (drop (Z.to_nat (left rect)) row)) <$>
    take (Z.to_nat (bottom rect - top rect))
      (drop (Z.to_nat (top rect)) (rows img))) as Hcrop.
  { unfold crop, crop2d. simpl. rewrite slice_in_bounds by lia.
    apply Forall_fmap_ext_1. apply Forall_take, Forall_drop.
    eapply Forall_impl; [exact Hrows|]. intros row Hrow. simpl in Hrow.
    apply slice_in_bounds; lia. }
  rewrite Hcrop. split_and!.
  - rewrite length_fmap, length_take, length_drop. lia.
  - apply Forall_fmap. apply Forall_take, Forall_drop.
    eapply Forall_impl; [exact Hrows|]. intros row Hrow. simpl in *.
    rewrite length_take, length_drop. lia.
  - intros i j Hi Hj. unfold pixel. rewrite Hcrop.
    rewrite list_lookup_fmap, lookup_take_lt by done. rewrite lookup_drop.
    destruct (rows img !! (Z.to_nat (top rect) + i)%nat) as [row|]; [|done].
    simpl. rewrite lookup_take_lt by done. by rewrite lookup_drop.
Qed.

End Decoder.
End Roi.

(** * Paths, as [pathlib] presents them *)

(** A path is its sequence of parts; the last part is the file name. *)
Record Path := mkPath { parent : list string; name : string }.

Definition parts (p : Path) : list string := parent p ++ [name p].

Global Instance Path_eq_dec : EqDecision Path.
Proof. solve_decision. Defined.

(** [pathlib] compares two paths by their parts, part by part, and a
    part by its characters' code points. *)
Fixpoint parts_compare (a b : list string) : comparison :=
  match a, b with
  | [], [] => Eq
  | [], _ :: _ => Lt
  | _ :: _, [] => Gt
  | x :: a', y :: b' =>
      match String.compare x y with
      | Eq => parts_compare a' b'
      | c => c
      end
  end.

(** [p < q] on paths. *)
Definition path_ltb (p q : Path) : bool :=
  match parts_compare (parts p) (parts q) with Lt => true | _ => false end.

Definition path_le (p q : Path) : Prop := path_ltb q p = false.

(** Python's [sorted]: a stable sort that compares with [<] only.  The
    elements carry the path they are compared by. *)
Fixpoint insert_by {A} (key : A → Path) (x : A) (l : list A) : list A :=
  match l with
  | [] => [x]
  | y :: l' => if path_ltb (key y) (key x) then y :: insert_by key x l' else x :: l
  end.

Fixpoint sorted_by {A} (key : A → Path) (l : list A) : list A :=
  match l with
  | [] => []
  | x :: l' => insert_by key x (sorted_by key l')
  end.

(** ** The order on paths and the sort *)

Lemma string_compare_refl (s : string) : String.compare s s = Eq.
Proof.
  pose proof (String.compare_antisym s s) as H.
  destruct (String.compare s s); simpl in H; congruence.
Qed.

Lemma string_compare_lt_trans (a b c : string) :
  String.compare a b = Lt → String.compare b c = Lt → String.compare a c = Lt.
Proof.
  intros Hab Hbc.
  assert (String.le a c) as Hac.
  { trans b; unfold String.le, String.leb; [by rewrite Hab | by rewrite Hbc]. }
  unfold String.le, String.leb in Hac.
  destruct (String.compare a c) eqn:E; [|done|done].
  apply String.compare_eq_iff in E. subst c.
  rewrite String.compare_antisym, Hab in Hbc. done.
Qed.

Lemma parts_compare_refl (a : list string) : parts_compare a a = Eq.
Proof. induction a as [|x a IH]; simpl; [done|]. by rewrite string_compare_refl. Qed.

Lemma parts_compare_eq (a b : list string) : parts_compare a b = Eq → a = b.
Proof.
  revert b. induction a as [|x a IH]; intros [|y b]; simpl; try done.
  destruct (String.compare x y) eqn:E; try done.
  apply String.compare_eq_iff in E. intros ?%IH. congruence.
Qed.

Lemma parts_compare_antisym (a b : list string) :
  parts_compare a b = CompOpp (parts_compare b a).
Proof.
  revert b. induction a as [|x a IH]; intros [|y b]; simpl; try done.
  rewrite (String.compare_antisym y x).
  destruct (String.compare x y); simpl; auto.
Qed.

Lemma parts_compare_lt_trans (a b c : list string) :
  parts_compare a b = Lt → parts_compare b c = Lt → parts_compare a c = Lt.
Proof.
  revert b c. induction a as [|x a IH]; intros [|y b] [|z c]; simpl; try done.
  destruct (String.compare x y) eqn:Exy; try done.
  - apply String.compare_eq_iff in Exy. subst y.
    destruct (String.compare x z); try done. apply IH.
  - intros _. destruct (String.compare y z) eqn:Eyz; try done.
    + apply String.compare_eq_iff in Eyz. subst z. by rewrite Exy.
    + by rewrite (string_compare_lt_trans x y z).
Qed.

Lemma parts_inj (p q : Path) : parts p = parts q → p = q.
Proof.
  destruct p as [d n], q as [d' n']. unfold parts. simpl.
  intros [-> ->]%app_inj_tail. done.
Qed.

Lemma path_ltb_irrefl (p : Path) : path_ltb p p = false.
Proof. unfold path_ltb. by rewrite parts_compare_refl. Qed.

Lemma path_ltb_asym (p q : Path) : path_ltb p q = true → path_ltb q p = false.
Proof.
  unfold path_ltb. rewrite (parts_compare_antisym (parts q)).
  by destruct (parts_compare (parts p) (parts q)).
Qed.

Global Instance path_le_refl : Reflexive path_le.
Proof. intros p. apply path_ltb_irrefl. Qed.

Global Instance path_le_trans : Transitive path_le.
Proof.
  intros p q r. unfold path_le, path_ltb.
  rewrite (parts_compare_antisym (parts q) (parts p)).
  rewrite (parts_compare_antisym (parts r) (parts q)).
  rewrite (parts_compare_antisym (parts r) (parts p)).
  destruct (parts_compare (parts p) (parts q)) eqn:Epq; simpl; try done.
  - apply parts_compare_eq in Epq. by rewrite Epq.
  - destruct (parts_compare (parts q) (parts r)) eqn:Eqr; simpl; try done.
    + apply parts_compare_eq in Eqr. by rewrite <- Eqr, Epq.
    + by rewrite (parts_compare_lt_trans _ _ _ Epq Eqr).
Qed.

Global Instance path_le_total : Total path_le.
Proof.
  intros p q. unfold path_le.
  destruct (path_ltb q p) eqn:E; [right | by left].
  by apply path_ltb_asym.
Qed.

Global Instance path_le_antisym : AntiSymm (=) path_le.
Proof.
  intros p q. unfold path_le, path_ltb.
  rewrite (parts_compare_antisym (parts q) (parts p)).
  destruct (parts_compare (parts p) (parts q)) eqn:E; simpl; try done.
  intros _ _. by apply parts_inj, parts_compare_eq.
Qed.

Section SortedBy.
Context {A : Type} (key : A → Path).

(** The order the sort establishes: no element is followed by one with
    a smaller path. *)
Definition key_le (x y : A) : Prop := path_le (key x) (key y).

Global Instance key_le_trans : Transitive key_le.
Proof. intros x y z. unfold key_le. apply path_le_trans. Qed.

Lemma insert_by_perm (x : A) (l : list A) : insert_by key x l ≡ₚ x :: l.
Proof.
  induction l as [|y l IH]; simpl; [done|].
  destruct (path_ltb (key y) (key x)); [|done].
  rewrite IH. apply Permutation_swap.
Qed.

Lemma sorted_by_perm (l : list A) : sorted_by key l ≡ₚ l.
Proof.
  induction l as [|x l IH]; simpl; [done|].
  by rewrite insert_by_perm, IH.
Qed.

Lemma insert_by_sorted (x : A) (l : list A) :
  Sorted key_le l → Sorted key_le (insert_by key x l).
Proof.
  induction l as [|y l IH]; simpl; intros Hs.
  - by repeat constructor.
  - destruct (path_ltb (key y) (key x)) eqn:E.
    + apply Sorted_inv in Hs as [Hs Hhd]. constructor; [by apply IH|].
      destruct l as [|z l]; simpl.
      * constructor. by apply path_ltb_asym.
      * destruct (path_ltb (key z) (key x)); constructor.
        -- by inversion Hhd.
        -- by apply path_ltb_asym.
    + constructor; [done|]. constructor. exact E.
Qed.

Lemma sorted_by_sorted (l : list A) : Sorted key_le (sorted_by key l).
Proof.
  induction l as [|x l IH]; simpl; [constructor|]. by apply insert_by_sorted.
Qed.

(** Two listings of the same elements, whose paths are pairwise
    distinct, sort to the same list. *)
Lemma sorted_by_unique (l1 l2 : list A) :
  NoDup (key <$> l1) → l1 ≡ₚ l2 → sorted_by key l1 = sorted_by key l2.
Proof.
  intros Hnd Hp.
  apply (Sorted_unique_strong key_le).
  - intros x y Hx Hy Hxy Hyx.
    assert (key x = key y) as Hk by (by apply (anti_symm path_le)).
    rewrite sorted_by_perm in Hx. rewrite sorted_by_perm, <- Hp in Hy.
    apply list_elem_of_lookup in Hx as [i Hi].
    apply list_elem_of_lookup in Hy as [j Hj].
    assert (i = j) as ->.
    { eapply NoDup_lookup; [exact Hnd| |].
      - by rewrite list_lookup_fmap, Hi.
      - by rewrite list_lookup_fmap, Hj, Hk. }
    congruence.
  - apply sorted_by_sorted.
  - apply sorted_by_sorted.
  - by rewrite !sorted_by_perm.
Qed.

End SortedBy.

(** Sorting commutes with a map that keeps the paths. *)
Lemma insert_by_map {A B} (kA : A → Path) (kB : B → Path) (g : A → B) x l :
  (∀ a, kB (g a) = kA a) →
  insert_by kB (g x) (map g l) = map g (insert_by kA x l).
Proof.
  intros Hk. induction l as [|y l IH]; simpl; [done|].
  rewrite !Hk. destruct (path_ltb (kA y) (kA x)); simpl; [by rewrite IH | done].
Qed.

Lemma sorted_by_map {A B} (kA : A → Path) (kB : B → Path) (g : A → B) l :
  (∀ a, kB (g a) = kA a) →
  sorted_by kB (map g l) = map g (sorted_by kA l).
Proof.
  intros Hk. induction l as [|x l IH]; simpl; [done|].
  rewrite IH. by apply insert_by_map.
Qed.

(** Sorting two lists whose elements correspond, path for path, keeps
    the correspondence. *)
Lemma insert_by_Forall2 {A B} (kA : A → Path) (kB : B → Path)
    (R : A → B → Prop) x y l k :
  (∀ a b, R a b → kA a = kB b) →
  R x y → Forall2 R l k →
  Forall2 R (insert_by kA x l) (insert_by kB y k).
Proof.
  intros Hk Hxy Hlk. induction Hlk as [|a b l k Hab Hlk IH]; simpl.
  - by repeat constructor.
  - rewrite (Hk _ _ Hab), (Hk _ _ Hxy).
    destruct (path_ltb (kB b) (kB y)); by repeat constructor.
Qed.

Lemma sorted_by_Forall2 {A B} (kA : A → Path) (kB : B → Path)
    (R : A → B → Prop) l k :
  (∀ a b, R a b → kA a = kB b) →
  Forall2 R l k → Forall2 R (sorted_by kA l) (sorted_by kB k).
Proof.
  intros Hk Hlk. induction Hlk; simpl; [constructor|].
  by apply insert_by_Forall2.
Qed.

(** Membership in a concatenation. *)
Lemma elem_of_concat_lists {A} (x : A) (ls : list (list A)) :
  x ∈ concat ls ↔ ∃ l, x ∈ l ∧ l ∈ ls.
Proof.
  induction ls as [|l ls IH]; simpl.
  - split; [by intros ?%elem_of_nil | by intros (? & _ & ?%elem_of_nil)].
  - rewrite elem_of_app, IH. split.
    + intros [H | (l' & ? & ?)]; [exists l; split; [done | left] |].
      exists l'. split; [done | by right].
    + intros (l' & Hx & Hl). apply elem_of_cons in Hl as [-> | Hl]; [by left|].
      right. eauto.
Qed.

Lemma Forall_concat_lists {A} (P : A → Prop) (ls : list (list A)) :
  Forall (Forall P) ls → Forall P (concat ls).
Proof.
  induction 1 as [|l ls Hl _ IH]; simpl; [constructor|].
  apply Forall_app. by split.
Qed.

(** * The traversal driver, [decode] in [gouda/scripts/decode_barcodes.py] *)
Module Driver.

(** What a strategy returns, and what a sink receives: [None], or a
    two-element sequence [[strategy, barcodes]]. *)
Inductive PyResult :=
| PyNone
| PySeq (strategy : option string) (barcodes : list Barcode).

(** Python's truth value of a result: [None] is false, a sequence is
    true when it has elements, and a two-element sequence has. *)
Definition truthy (r : PyResult) : bool :=
  match r with
  | PyNone => false
  | PySeq _ _ => true
  end.

#[local] Set Warnings "-register-all".
#[local] Unset Elimination Schemes.
(** The directory tree as the run finds it, by what [p.is_dir()]
    does: it returns false ([File]: a file, or anything that is not a
    directory), it returns true ([Dir]: a directory, whose [iterdir()]
    lists its children or raises), or it raises ([NoStat]: [pathlib]
    passes on every error of [stat] other than a missing or looping
    path, such as a parent directory that may not be searched). *)
Inductive Entry :=
| File (p : Path)
| Dir (p : Path) (iterdir : Res (list Entry))
| NoStat (p : Path) (ex : Exn).
#[local] Set Elimination Schemes.

(** Induction on a tree, with the property available for every child
    of a listed directory. *)
Section EntryInduction.
Variable P : Entry → Prop.
Hypothesis Hfile : ∀ p, P (File p).
Hypothesis Hunlisted : ∀ p ex, P (Dir p (Raise ex)).
Hypothesis Hlisted : ∀ p children, Forall P children → P (Dir p (Ok children)).
Hypothesis Hnostat : ∀ p ex, P (NoStat p ex).

Fixpoint Entry_ind (e : Entry) : P e :=
  match e with
  | File p => Hfile p
  | Dir p (Raise ex) => Hunlisted p ex
  | Dir p (Ok children) =>
      Hlisted p children
        ((fix all (l : list Entry) : Forall P l :=
            match l with
            | [] => @List.Forall_nil _ P
            | c :: l' => @List.Forall_cons _ P c l' (Entry_ind c) (all l')
            end) children)
  | NoStat p ex => Hnostat p ex
  end.
End EntryInduction.

Definition entry_path (e : Entry) : Path :=
  match e with File p => p | Dir p _ => p | NoStat p _ => p end.

(** What the driver does that an observer sees: the calls of
    [visitor.result(p, result)], by position of the visitor in
    [visitors], and the lines [Error processing [p]]. *)
Inductive Event :=
| EvResult (i : nat) (p : Path) (r : PyResult)
| EvError (p : Path) (e : Exn).

Section Decode.
(** [W] is everything the collaborators can read and change: disk,
    console, and the private state of engine, strategies and sinks. *)
Context {W Image Engine : Type}.

Record State := mkState { world : W; trace : list Event }.

Definition Strategy := Image → Engine → M W PyResult.
Definition Visitor := Path → PyResult → M W unit.

Variable read_image : Path → bool → M W (option Image).

Definition lift {A} (m : M W A) : M State A := λ s,
  let '(r, w) := m (world s) in (r, {| world := w; trace := trace s |}).

Definition emit (ev : Event) : M State unit := λ s,
  (Ok tt, {| world := world s; trace := trace s ++ [ev] |}).

Variable strategies : list Strategy.
Variable engine : Engine.
Variable visitors : list Visitor.
Variable read_greyscale : bool.

(** Lines 43-50: [for strategy in strategies: ... else: ...]. *)
Fixpoint strategy_loop (ss : list Strategy) (img : Image) : M W PyResult :=
  match ss with
  | [] => mret (PySeq None [])
  | strategy :: ss' =>
      result ← strategy img engine;
      if truthy result then mret result else strategy_loop ss' img
  end.

(** [for visitor in visitors: visitor.result(p, result)]; [i] is the
    position of the first visitor of [vs] in [visitors]. *)
Fixpoint call_visitors (i : nat) (vs : list Visitor) (p : Path)
    (result : PyResult) : M State unit :=
  match vs with
  | [] => mret tt
  | visitor :: vs' =>
      _ ← emit (EvResult i p result);
      _ ← lift (visitor p result);
      call_visitors (S i) vs' p result
  end.

(** Lines 35-56: the [else] branch of the loop body. *)
Definition process_file (p : Path) : M State unit :=
  try_except
    (img ← lift (read_image p read_greyscale);
     match img with
     | None => call_visitors 0 visitors p (PySeq None [])
     | Some img =>
         result ← lift (strategy_loop strategies img);
         call_visitors 0 visitors p result
     end)
    (λ ex, emit (EvError p ex)).

(** The loop body for one entry.  The recursive call of [decode] on
    [p.iterdir()] sorts the children and runs the body on each; the
    children are paired with their bodies before sorting so that the
    recursion is structural ([visit_dir] below states it the way the
    source does). *)
Fixpoint visit (e : Entry) : M State unit :=
  match e with
  | File p => process_file p
  | Dir p ls =>
      match ls with
      | Raise ex => raise ex
      | Ok children =>
          for_each
            (sorted_by fst (map (λ c, (entry_path c, visit c)) children))
            snd
      end
  | NoStat p ex => raise ex
  end.

(** [decode(paths, strategies, engine, visitors, read_greyscale)];
    [paths] is an iterable that yields the entries or raises. *)
Definition decode (paths : Res (list Entry)) : M State unit :=
  match paths with
  | Raise ex => raise ex
  | Ok ps => for_each (sorted_by entry_path ps) visit
  end.

(** The outcome for a file once its image is loaded: the fixed empty
    outcome when there is no image, the strategies' result otherwise. *)
Definition outcome_of (img : option Image) : M W PyResult :=
  match img with
  | None => mret (PySeq None [])
  | Some img => strategy_loop strategies img
  end.

(** The strategies of [ss], run in order from [w], all return a false
    value and leave the world [w']. *)
Inductive all_decline (img : Image) : list Strategy → W → W → Prop :=
| decline_nil w : all_decline img [] w w
| decline_cons strategy ss w w1 w2 r :
    strategy img engine w = (Ok r, w1) →
    truthy r = false →
    all_decline img ss w1 w2 →
    all_decline img (strategy :: ss) w w2.

(** A file fails before any sink is called: loading raises, or the
    strategies raise. *)
Definition fails_before_sinks (p : Path) (w : W) (e : Exn) (w' : W) : Prop :=
  read_image p read_greyscale w = (Raise e, w') ∨
  ∃ img w1, read_image p read_greyscale w = (Ok (Some img), w1) ∧
            strategy_loop strategies img w1 = (Raise e, w').

(** [is_dir()] returns for every entry of the tree, and every directory
    can be listed. *)
#[local] Unset Elimination Schemes.
Inductive readable : Entry → Prop :=
| readable_file p : readable (File p)
| readable_dir p children :
    Forall readable children → readable (Dir p (Ok children)).

(** No listing names a path twice. *)
Inductive distinct_paths : Entry → Prop :=
| distinct_file p : distinct_paths (File p)
| distinct_unlisted p ex : distinct_paths (Dir p (Raise ex))
| distinct_nostat p ex : distinct_paths (NoStat p ex)
| distinct_listed p children :
    NoDup (entry_path <$> children) →
    Forall distinct_paths children →
    distinct_paths (Dir p (Ok children)).

(** The same tree, with the children of each directory listed in some
    other order. *)
Inductive same_tree : Entry → Entry → Prop :=
| same_file p : same_tree (File p) (File p)
| same_unlisted p ex : same_tree (Dir p (Raise ex)) (Dir p (Raise ex))
| same_nostat p ex : same_tree (NoStat p ex) (NoStat p ex)
| same_listed p cs1 cs1' cs2 :
    cs1 ≡ₚ cs1' →
    Forall2 same_tree cs1' cs2 →
    same_tree (Dir p (Ok cs1)) (Dir p (Ok cs2)).
#[local] Set Elimination Schemes.

(** The events of calling the visitors [vs], the first of which has
    position [i], with [(p, r)]. *)
Definition result_events (i : nat) (vs : list Visitor) (p : Path)
    (r : PyResult) : list Event :=
  imap (λ j _, EvResult (i + j) p r) vs.

(** The world after the visitors [vs] have been called in order. *)
Definition after_visitors (vs : list Visitor) (p : Path) (r : PyResult)
    (w : W) : W :=
  foldl (λ w v, (v p r w).2) w vs.

(** *** The loop body and the recursion *)

Lemma for_each_map {A B} (g : A → B) (body : B → M State unit) (l : list A) :
  for_each (map g l) body = for_each l (λ x, body (g x)).
Proof. induction l as [|x l IH]; simpl; [done | by rewrite IH]. Qed.

Lemma for_each_ext {A} (f g : A → M State unit) (l : list A) :
  (∀ x, f x = g x) → for_each l f = for_each l g.
Proof. intros H. induction l as [|x l IH]; simpl; [done | by rewrite IH, H]. Qed.

(** The loop body on a directory is the recursive call
    [decode(p.iterdir(), ...)]. *)
Lemma visit_dir (p : Path) (ls : Res (list Entry)) :
  visit (Dir p ls) = decode ls.
Proof.
  destruct ls as [children|ex]; [|done]. simpl.
  rewrite (sorted_by_map entry_path fst) by done.
  rewrite for_each_map. apply for_each_ext. done.
Qed.

Lemma visit_file (p : Path) : visit (File p) = process_file p.
Proof. done. Qed.

(** *** The strategy chain *)

Lemma strategy_loop_app_decline (img : Image) ss1 ss2 w w1 :
  all_decline img ss1 w w1 →
  strategy_loop (ss1 ++ ss2) img w = strategy_loop ss2 img w1.
Proof.
  induction 1 as [|strategy ss w w1 w2 r Hs Hr _ IH]; simpl; [done|].
  unfold mbind, M_bind. by rewrite Hs, Hr.
Qed.

(** C1 (as the code has it). The result of the chain is the result of
    the first strategy that returns a two-element outcome, whatever its
    barcodes, an empty sequence included; the strategies after it are
    not called.  Only a strategy that returns [None] passes the turn,
    and when all do the result is [[None, []]]. *)
Theorem first_outcome_is_final (img : Image) (ss1 ss2 : list Strategy)
    (strategy : Strategy) (w w1 w2 : W)
    (name : option string) (barcodes : list Barcode)
    (Hbefore : all_decline img ss1 w w1)
    (Hthis : strategy img engine w1 = (Ok (PySeq name barcodes), w2)) :
  strategy_loop (ss1 ++ strategy :: ss2) img w = (Ok (PySeq name barcodes), w2) ∧
  strategy_loop ss1 img w = (Ok (PySeq None []), w1).
Proof.
  split.
  - rewrite (strategy_loop_app_decline _ _ _ _ _ Hbefore). simpl.
    unfold mbind, M_bind. by rewrite Hthis.
  - rewrite <- (app_nil_r ss1).
    by rewrite (strategy_loop_app_decline _ _ _ _ _ Hbefore).
Qed.

(** *** Calling the visitors *)

Lemma result_events_cons (i : nat) (v : Visitor) (vs : list Visitor) p r :
  result_events i (v :: vs) p r = EvResult i p r :: result_events (S i) vs p r.
Proof.
  unfold result_events. simpl. f_equal; [f_equal; lia|].
  apply imap_ext. intros j ? _. simpl. f_equal. lia.
Qed.

Lemma result_events_length (i : nat) (vs : list Visitor) p r :
  length (result_events i vs p r) = length vs.
Proof. unfold result_events. by rewrite length_imap. Qed.

Lemma call_visitors_ok (i : nat) (vs : list Visitor) (p : Path) (r : PyResult)
    (s : State) :
  Forall (λ v : Visitor, ∀ w, (v p r w).1 = Ok tt) vs →
  call_visitors i vs p r s =
    (Ok tt, {| world := after_visitors vs p r (world s);
               trace := trace s ++ result_events i vs p r |}).
Proof.
  intros Hvs. revert i s.
  induction Hvs as [|v vs Hv _ IH]; intros i s; simpl.
  - unfold result_events. simpl. rewrite app_nil_r. by destruct s.
  - unfold mbind, M_bind, emit, lift. simpl.
    specialize (Hv (world s)). destruct (v p r (world s)) as [res w'].
    simpl in Hv. subst res. rewrite IH. simpl.
    by rewrite result_events_cons, <- app_assoc.
Qed.

Lemma call_visitors_raise (i : nat) (vs1 vs2 : list Visitor) (v : Visitor)
    (p : Path) (r : PyResult) (s : State) (e : Exn) (w' : W) :
  Forall (λ v : Visitor, ∀ w, (v p r w).1 = Ok tt) vs1 →
  v p r (after_visitors vs1 p r (world s)) = (Raise e, w') →
  call_visitors i (vs1 ++ v :: vs2) p r s =
    (Raise e, {| world := w';
                 trace := trace s ++ result_events i (vs1 ++ [v]) p r |}).
Proof.
  intros Hvs. revert i s.
  induction Hvs as [|v1 vs1 Hv1 _ IH]; intros i s Hv; simpl in *.
  - unfold mbind, M_bind, emit, lift. simpl. rewrite Hv.
    by rewrite result_events_cons.
  - unfold mbind, M_bind, emit, lift. simpl.
    specialize (Hv1 (world s)). destruct (v1 p r (world s)) as [res w1].
    simpl in Hv1. subst res. rewrite (IH (S i)); [|exact Hv]. simpl.
    by rewrite result_events_cons, <- app_assoc.
Qed.

(** The body of the [try] in terms of [outcome_of]. *)
Lemma process_file_outcome (p : Path) (s : State) :
  process_file p s =
    try_except
      (img ← lift (read_image p read_greyscale);
       result ← lift (outcome_of img);
       call_visitors 0 visitors p result)
      (λ ex, emit (EvError p ex)) s.
Proof.
  unfold process_file, try_except, mbind, M_bind, lift.
  destruct (read_image p read_greyscale (world s)) as [[[img|]|e] w1]; simpl; done.
Qed.

(** The loop over a list of bodies that all return normally returns
    normally. *)
Lemma for_each_returns {A} (body : A → M State unit) (l : list A) (s : State) :
  Forall (λ x, ∀ s, ∃ s', body x s = (Ok tt, s')) l →
  ∃ s', for_each l body s = (Ok tt, s').
Proof.
  intros Hl. revert s. induction Hl as [|x l Hx _ IH]; intros s; simpl.
  - by eexists.
  - unfold mbind, M_bind. destruct (Hx s) as [s1 ->]. apply IH.
Qed.

(** The handler turns every exception of the body into a log line:
    the loop body on a file never raises. *)
Lemma process_file_returns (p : Path) (s : State) :
  ∃ s', process_file p s = (Ok tt, s').
Proof.
  unfold process_file, try_except.
  match goal with |- context [match ?b s with _ => _ end] =>
    destruct (b s) as [[[]|e] s1] end; eauto.
Qed.

Lemma visit_completes (e : Entry) :
  readable e → ∀ s, ∃ s', visit e s = (Ok tt, s').
Proof.
  induction e as [p|p ex|p children IH|p ex] using Entry_ind; intros Hr s.
  - apply process_file_returns.
  - inversion Hr.
  - rewrite visit_dir. simpl. inversion Hr as [|? ? Hcs]; subst.
    apply for_each_returns.
    rewrite sorted_by_perm.
    rewrite Forall_forall in IH, Hcs |- *. intros c Hc. by apply IH, Hcs.
  - inversion Hr.
Qed.

Lemma decode_completes (paths : list Entry) (s : State) :
  Forall readable paths → ∃ s', decode (Ok paths) s = (Ok tt, s').
Proof.
  intros Hr. simpl. apply for_each_returns. rewrite sorted_by_perm.
  eapply Forall_impl; [exact Hr|]. intros e He. by apply visit_completes.
Qed.




(** *** The visiting order *)

Lemma same_tree_path (a b : Entry) : same_tree a b → entry_path a = entry_path b.
Proof. by destruct 1. Qed.

Lemma Forall2_impl_elem {A B} (P Q : A → B → Prop) (l : list A) (k : list B) :
  Forall2 P l k → (∀ x y, x ∈ l → P x y → Q x y) → Forall2 Q l k.
Proof.
  induction 1 as [|x y l k Hxy _ IH]; intros HPQ; constructor.
  - apply HPQ; [left | done].
  - apply IH. intros a b Ha. apply HPQ. by right.
Qed.

Lemma for_each_Forall2 {A B} (f : A → M State unit) (g : B → M State unit)
    (l : list A) (k : list B) :
  Forall2 (λ a b, ∀ s, f a s = g b s) l k →
  ∀ s, for_each l f s = for_each k g s.
Proof.
  induction 1 as [|a b l k Hab _ IH]; intros s; simpl; [done|].
  unfold mbind, M_bind. rewrite Hab.
  destruct (g b s) as [[[]|e] s1]; [apply IH | done].
Qed.

Lemma sorted_same_listing (cs1 cs1' cs2 : list Entry) (s : State) :
  NoDup (entry_path <$> cs1) →
  Forall (λ c, ∀ c', same_tree c c' → ∀ s, visit c s = visit c' s) cs1 →
  cs1 ≡ₚ cs1' →
  Forall2 same_tree cs1' cs2 →
  for_each (sorted_by entry_path cs1) visit s =
  for_each (sorted_by entry_path cs2) visit s.
Proof.
  intros Hnd IH Hp Hsame.
  rewrite (sorted_by_unique entry_path cs1 cs1' Hnd Hp).
  apply for_each_Forall2.
  eapply Forall2_impl_elem.
  - apply (sorted_by_Forall2 entry_path entry_path same_tree);
      [apply same_tree_path | exact Hsame].
  - intros a b Ha Hab. rewrite sorted_by_perm, <- Hp in Ha.
    rewrite Forall_forall in IH. by apply IH.
Qed.

Lemma visit_same_tree (e1 : Entry) :
  distinct_paths e1 → ∀ e2, same_tree e1 e2 → ∀ s, visit e1 s = visit e2 s.
Proof.
  induction e1 as [p|p ex|p children IH|p ex] using Entry_ind;
    intros Hd e2 Hsame s.
  - by inversion Hsame.
  - by inversion Hsame.
  - inversion Hsame as [| | |? ? cs1' cs2 Hp Hcs]; subst.
    inversion Hd as [| | |? ? Hnd Hds]; subst.
    rewrite !visit_dir. simpl.
    apply (sorted_same_listing children cs1' cs2); [done| |done..].
    rewrite Forall_forall in IH, Hds |- *.
    intros c Hc c' Hcc'. by apply IH; [|apply Hds|].
  - by inversion Hsame.
Qed.

(** C8. At every level [decode] runs the loop body on the entries in
    sorted order of their paths, and the loop body on a directory is
    [decode] on its listing.  Hence the run does not depend on the order
    in which directories list their children: two runs on the same tree
    (where no listing names a path twice) from the same state make the
    same calls to the visitors, in the same order. *)
Theorem traversal_sorted_deterministic (ps1 ps1' ps2 : list Entry) (s : State)
    (Hnodup : NoDup (entry_path <$> ps1))
    (Hdistinct : Forall distinct_paths ps1)
    (Hperm : ps1 ≡ₚ ps1')
    (Hsame : Forall2 same_tree ps1' ps2) :
  decode (Ok ps1) = for_each (sorted_by entry_path ps1) visit ∧
  Sorted (key_le entry_path) (sorted_by entry_path ps1) ∧
  sorted_by entry_path ps1 ≡ₚ ps1 ∧
  (∀ p ls, visit (Dir p ls) = decode ls) ∧
  decode (Ok ps1) s = decode (Ok ps2) s ∧
  trace (decode (Ok ps1) s).2 = trace (decode (Ok ps2) s).2.
Proof.
  assert (decode (Ok ps1) s = decode (Ok ps2) s) as Heq.
  { simpl. apply (sorted_same_listing ps1 ps1' ps2); [done| |done..].
    eapply Forall_impl; [exact Hdistinct|].
    intros c Hc c' Hcc'. by apply visit_same_tree. }
  split_and!.
  - done.
  - apply sorted_by_sorted.
  - apply sorted_by_perm.
  - apply visit_dir.
  - exact Heq.
  - by rewrite Heq.
Qed.

(** *** The run as one loop over the files *)

(** What a run does, in order: process a file, or stop with the
    exception of a directory that cannot be listed or of an entry whose
    [is_dir()] raises. *)
Inductive Step :=
| Process (p : Path)
| Abort (ex : Exn).

(** The steps of the loop body on an entry, directories unfolded in
    sorted order (the children are paired with their steps before
    sorting, as in [visit]). *)
Fixpoint plan (e : Entry) : list Step :=
  match e with
  | File p => [Process p]
  | Dir p ls =>
      match ls with
      | Raise ex => [Abort ex]
      | Ok children =>
          concat (map snd (sorted_by fst (map (λ c, (entry_path c, plan c)) children)))
      end
  | NoStat p ex => [Abort ex]
  end.

Definition plan_of (paths : Res (list Entry)) : list Step :=
  match paths with
  | Raise ex => [Abort ex]
  | Ok ps => concat (plan <$> sorted_by entry_path ps)
  end.

Definition run_step (st : Step) : M State unit :=
  match st with
  | Process p => process_file p
  | Abort ex => raise ex
  end.

(** [p] is a file of the tree [e]. *)
Inductive is_file_of (p : Path) : Entry → Prop :=
| file_here : is_file_of p (File p)
| file_below d children c :
    c ∈ children → is_file_of p c → is_file_of p (Dir d (Ok children)).

Definition event_path (ev : Event) : Path :=
  match ev with EvResult _ p _ => p | EvError p _ => p end.

Lemma plan_dir (p : Path) (ls : Res (list Entry)) : plan (Dir p ls) = plan_of ls.
Proof.
  destruct ls as [children|ex]; [|done]. simpl.
  rewrite (sorted_by_map entry_path fst) by done.
  f_equal. rewrite map_map. done.
Qed.

Lemma for_each_app {A} (f : A → M State unit) (l1 l2 : list A) (s : State) :
  for_each (l1 ++ l2) f s = (_ ← for_each l1 f; for_each l2 f) s.
Proof.
  revert s. induction l1 as [|x l1 IH]; intros s; simpl; [done|].
  unfold mbind, M_bind in *. destruct (f x s) as [[[]|e] s1]; [apply IH | done].
Qed.

Lemma for_each_concat {A B} (g : A → list B) (f : B → M State unit)
    (l : list A) (s : State) :
  for_each (concat (g <$> l)) f s = for_each l (λ x, for_each (g x) f) s.
Proof.
  revert s. induction l as [|x l IH]; intros s; simpl; [done|].
  rewrite for_each_app. unfold mbind, M_bind.
  destruct (for_each (g x) f s) as [[[]|e] s1]; [apply IH | done].
Qed.

Lemma for_each_ext_elem {A} (f g : A → M State unit) (l : list A) :
  (∀ x, x ∈ l → ∀ s, f x s = g x s) → ∀ s, for_each l f s = for_each l g s.
Proof.
  induction l as [|x l IH]; intros H s; simpl; [done|].
  unfold mbind, M_bind. rewrite (H x) by left.
  destruct (g x s) as [[[]|e] s1]; [|done].
  apply IH. intros y Hy. apply H. by right.
Qed.

Lemma visit_plan (e : Entry) (s : State) :
  visit e s = for_each (plan e) run_step s.
Proof.
  revert s. induction e as [p|p ex|p children IH|p ex] using Entry_ind; intros s.
  - simpl. unfold mbind, M_bind.
    by destruct (process_file p s) as [[[]|e] s1].
  - done.
  - rewrite visit_dir, plan_dir. simpl. rewrite for_each_concat.
    apply for_each_ext_elem. intros c Hc s'.
    rewrite sorted_by_perm in Hc. rewrite Forall_forall in IH. by apply IH.
  - done.
Qed.

Lemma readable_plan (e : Entry) :
  readable e → Forall (λ st, ∃ p, st = Process p) (plan e).
Proof.
  induction e as [p|p ex|p children IH|p ex] using Entry_ind; intros Hr.
  - repeat constructor. by exists p.
  - inversion Hr.
  - inversion Hr as [|? ? Hcs]; subst. rewrite plan_dir. simpl.
    apply Forall_concat_lists, Forall_fmap. rewrite sorted_by_perm.
    rewrite Forall_forall in IH, Hcs |- *. intros c Hc. by apply IH, Hcs.
  - inversion Hr.
Qed.

Lemma plan_files (e : Entry) (p : Path) :
  Process p ∈ plan e → is_file_of p e.
Proof.
  induction e as [q|q ex|q children IH|q ex] using Entry_ind; intros Hin.
  - apply list_elem_of_singleton in Hin as [= ->]. constructor.
  - by apply list_elem_of_singleton in Hin.
  - rewrite plan_dir in Hin. simpl in Hin.
    apply elem_of_concat_lists in Hin as (steps & Hp & Hsteps).
    apply list_elem_of_fmap in Hsteps as (c & -> & Hc).
    rewrite sorted_by_perm in Hc.
    rewrite Forall_forall in IH. econstructor; [exact Hc | by apply IH].
  - by apply list_elem_of_singleton in Hin.
Qed.

Lemma decode_plan (paths : Res (list Entry)) (s : State) :
  decode paths s = for_each (plan_of paths) run_step s.
Proof.
  destruct paths as [ps|ex]; [|done]. simpl. rewrite for_each_concat.
  apply for_each_ext_elem. intros e _ s'. apply visit_plan.
Qed.

(** X4. A run of [decode] is one loop over the files of the tree, taken
    depth first with every listing sorted: each file is processed in
    turn, and the run stops at the first directory that cannot be
    listed or entry whose [is_dir()] raises, the files sorted before it
    having been processed.  When [is_dir()] returns for every entry and
    every directory can be listed, the loop has no such stop. *)
Theorem decode_is_flat_loop (paths : Res (list Entry)) (s : State) :
  decode paths s = for_each (plan_of paths) run_step s ∧
  (∀ p ls, plan (Dir p ls) = plan_of ls) ∧
  (∀ p, Process p ∈ plan_of paths →
        ∃ ps e, paths = Ok ps ∧ e ∈ ps ∧ is_file_of p e) ∧
  (∀ ps, paths = Ok ps → Forall readable ps →
         Forall (λ st, ∃ p, st = Process p) (plan_of paths)).
Proof.
  split_and!.
  - apply decode_plan.
  - apply plan_dir.
  - intros p Hin. destruct paths as [ps|ex].
    + simpl in Hin. apply elem_of_concat_lists in Hin as (steps & Hp & Hsteps).
      apply list_elem_of_fmap in Hsteps as (e & -> & He).
      rewrite sorted_by_perm in He. exists ps, e.
      split_and!; [done | done | by apply plan_files].
    + by apply list_elem_of_singleton in Hin.
  - intros ps -> Hr. simpl. apply Forall_concat_lists, Forall_fmap.
    rewrite sorted_by_perm. eapply Forall_impl; [exact Hr|].
    intros e He. by apply readable_plan.
Qed.

(** *** What the visitors are called with *)

(** The calls made for one file, whatever the visitors do: the first
    [k] visitors, in order, then nothing more. *)
Lemma call_visitors_shape (i : nat) (vs : list Visitor) (p : Path)
    (r : PyResult) (s : State) :
  ∃ k, k ≤ length vs ∧
       trace (call_visitors i vs p r s).2 =
         trace s ++ result_events i (take k vs) p r ∧
       ((call_visitors i vs p r s).1 = Ok tt → k = length vs).
Proof.
  revert i s. induction vs as [|v vs IH]; intros i s; simpl.
  - exists 0. unfold result_events. simpl. rewrite app_nil_r. done.
  - unfold mbind, M_bind, emit, lift. simpl.
    destruct (v p r (world s)) as [[[]|e] w1]; simpl.
    + destruct (IH (S i) {| world := w1; trace := trace s ++ [EvResult i p r] |})
        as (k & Hk & Ht & Hok).
      exists (S k). simpl. rewrite result_events_cons.
      simpl in Ht.
      split_and!; [lia | by rewrite Ht, <- app_assoc |].
      intros H. by rewrite Hok.
    + exists 1. simpl. rewrite take_0. rewrite result_events_cons.
      unfold result_events at 1. simpl. split_and!; [lia | done | done].
Qed.

Lemma strategy_loop_truthy (ss : list Strategy) (img : Image) (w w' : W)
    (r : PyResult) :
  strategy_loop ss img w = (Ok r, w') → truthy r = true.
Proof.
  revert w. induction ss as [|strategy ss IH]; intros w; simpl.
  - by intros [= <- _].
  - unfold mbind, M_bind.
    destruct (strategy img engine w) as [[r1|e] w1]; [|done].
    destruct (truthy r1) eqn:Hr; [|apply IH].
    by intros [= <- _].
Qed.

Lemma outcome_of_truthy (img : option Image) (w w' : W) (r : PyResult) :
  outcome_of img w = (Ok r, w') → truthy r = true.
Proof.
  destruct img as [img|]; simpl.
  - apply strategy_loop_truthy.
  - by intros [= <- _].
Qed.


(** The events of one file concern that file; a call carries a
    two-element outcome and the position of a visitor. *)
Definition event_of (p : Path) (ev : Event) : Prop :=
  event_path ev = p ∧
  match ev with
  | EvResult i _ r => i < length visitors ∧ truthy r = true
  | EvError _ _ => True
  end.

Lemma process_file_events (p : Path) (s : State) :
  ∃ evs, trace (process_file p s).2 = trace s ++ evs ∧ Forall (event_of p) evs.
Proof.
  rewrite process_file_outcome.
  unfold try_except, mbind, M_bind, lift.
  destruct (read_image p read_greyscale (world s)) as [[img|e] w1]; simpl.
  2:{ exists [EvError p e]. split; [done|]. by repeat constructor. }
  destruct (outcome_of img w1) as [[r|e] w2] eqn:Hout; simpl.
  2:{ exists [EvError p e]. split; [done|]. by repeat constructor. }
  pose proof (outcome_of_truthy _ _ _ _ Hout) as Hr.
  destruct (call_visitors_shape 0 visitors p r {| world := w2; trace := trace s |})
    as (k & Hk & Ht & _).
  assert (Forall (event_of p) (result_events 0 (take k visitors) p r)) as Hall.
  { unfold result_events. apply Forall_forall. intros ev Hev.
    apply elem_of_lookup_imap in Hev as (j & v & -> & Hj).
    apply lookup_lt_Some in Hj. rewrite length_take in Hj.
    split; [done|]. simpl. split; [lia | done]. }
  destruct (call_visitors 0 visitors p r {| world := w2; trace := trace s |})
    as [[[]|e] s1]; simpl in *.
  - eauto.
  - exists (result_events 0 (take k visitors) p r ++ [EvError p e]).
    rewrite Ht, <- app_assoc. split; [done|].
    apply Forall_app. split; [done|]. by repeat constructor.
Qed.

Lemma for_each_steps_events (steps : list Step) (s : State) :
  ∃ evs, trace (for_each steps run_step s).2 = trace s ++ evs ∧
         Forall (λ ev, ∃ p, Process p ∈ steps ∧ event_of p ev) evs.
Proof.
  revert s. induction steps as [|st steps IH]; intros s; simpl.
  - exists []. by rewrite app_nil_r.
  - unfold mbind, M_bind. destruct st as [p|ex]; simpl.
    + destruct (process_file_events p s) as (evs1 & Ht1 & Hall1).
      destruct (process_file p s) as [[[]|e] s1]; simpl in *.
      * destruct (IH s1) as (evs2 & Ht2 & Hall2).
        exists (evs1 ++ evs2). rewrite Ht2, Ht1, app_assoc. split; [done|].
        apply Forall_app. split.
        -- eapply Forall_impl; [exact Hall1|]. intros ev Hev. exists p.
           split; [left | done].
        -- eapply Forall_impl; [exact Hall2|]. intros ev (q & Hq & Hev).
           exists q. split; [by right | done].
      * exists evs1. split; [done|].
        eapply Forall_impl; [exact Hall1|]. intros ev Hev. exists p.
        split; [left | done].
    + exists []. by rewrite app_nil_r.
Qed.

Lemma decode_events (paths : Res (list Entry)) (s : State) :
  ∃ evs, trace (decode paths s).2 = trace s ++ evs ∧
         Forall (λ ev, ∃ p, Process p ∈ plan_of paths ∧ event_of p ev) evs.
Proof.
  rewrite decode_plan. apply for_each_steps_events.
Qed.

(** X6. Whatever the tree and the collaborators, a run of [decode]
    only adds to the trace, and every call it makes to a visitor
    carries a two-element outcome, never [None], and the position of a
    visitor of [visitors]. *)
Theorem sinks_never_get_none (paths : Res (list Entry)) (s : State) :
  ∃ evs, trace (decode paths s).2 = trace s ++ evs ∧
         Forall (λ ev, match ev with
                       | EvResult i p r =>
                           i < length visitors ∧
                           ∃ strategy barcodes, r = PySeq strategy barcodes
                       | EvError _ _ => True
                       end) evs.
Proof.
  destruct (decode_events paths s) as (evs & Ht & Hall).
  exists evs. split; [exact Ht|].
  eapply Forall_impl; [exact Hall|].
  intros [i p r|p e] (q & _ & _ & Hev); [|done].
  destruct Hev as [Hi Hr]. split; [done|]. destruct r; [done | eauto].
Qed.

(** X7. Every event that a run of [decode] adds, a call to a visitor
    or an error line, concerns a file of the tree that [decode] was
    given: no visitor is called with the path of a directory, and none
    with a path outside the tree. *)
Theorem sinks_get_files_only (paths : Res (list Entry)) (s : State) :
  ∃ evs, trace (decode paths s).2 = trace s ++ evs ∧
         Forall (λ ev, ∃ ps e, paths = Ok ps ∧ e ∈ ps ∧
                               is_file_of (event_path ev) e) evs.
Proof.
  destruct (decode_events paths s) as (evs & Ht & Hall).
  exists evs. split; [exact Ht|].
  eapply Forall_impl; [exact Hall|].
  intros ev (q & Hq & <- & _).
  destruct paths as [ps|ex].
  - simpl in Hq. apply elem_of_concat_lists in Hq as (steps & Hp & Hsteps).
    apply list_elem_of_fmap in Hsteps as (e & -> & He).
    rewrite sorted_by_perm in He. exists ps, e.
    split_and!; [done | done | by apply plan_files].
  - by apply list_elem_of_singleton in Hq.
Qed.

End Decode.
End Driver.

(** * The rename sink, [RenameVisitor] in [gouda/scripts/decode_barcodes.py] *)

Global Instance Path_countable : Countable Path.
Proof.
  refine (inj_countable' (λ p, (parent p, name p)) (λ dn, mkPath dn.1 dn.2) _).
  by intros [].
Defined.

(** [str.rfind('.')]. *)
Fixpoint rfind_dot (s : string) : option nat :=
  match s with
  | EmptyString => None
  | String c s' =>
      match rfind_dot s' with
      | Some i => Some (S i)
      | None => if Ascii.eqb c "." then Some 0 else None
      end
  end.

(** [PurePath.suffix] and [PurePath.stem], from the file name. *)
Definition has_suffix_at (nm : string) (i : nat) : bool :=
  (0 <? i) && (i <? String.length nm - 1).

Definition suffix_of (nm : string) : string :=
  match rfind_dot nm with
  | Some i =>
      if has_suffix_at nm i then substring i (String.length nm - i) nm else ""
  | None => ""
  end.

Definition stem_of (nm : string) : string :=
  match rfind_dot nm with
  | Some i => if has_suffix_at nm i then substring 0 i nm else nm
  | None => nm
  end.

(** [path.with_name(nm)]: [ValueError] when the path has no name or the
    new name is empty (names are single parts, without separators). *)
Definition with_name (p : Path) (nm : string) : Res Path :=
  if decide (name p = "") then Raise "ValueError: path has an empty name"
  else if decide (nm = "") then Raise "ValueError: invalid name"
  else Ok {| parent := parent p; name := nm |}.

Module Rename.

(** A file on disk: contents and metadata. *)
Record FileData := mkFile { content : bytes; mtime : nat }.

(** The calls that change the disk. *)
Inductive FsOp :=
| OpRename (source dest : Path)
| OpCopy2 (source dest : Path).

(** The lines the sink prints. *)
Inductive Line :=
| LPath (p : Path)
| LNoBarcodes
| LAlreadyNamed
| LCannotRename (dest : Path)
| LRenamed (dest : Path)
| LCopied (dest : Path).

(** The world of the sink: the disk, the sink's own [self.suffix], the
    console, and the record of the calls that changed the disk.  The
    disk holds regular files: a path is a file or there is nothing at
    it, so destinations that are directories or links are not
    described.
    [self.suffix] is a [defaultdict] of [count(start=1)] iterators, kept
    here as the next number of each iterator. *)
Record World := mkWorld {
  disk : gmap Path FileData;
  suffix : gmap string nat;
  stdout : list Line;
  ops : list FsOp
}.

Local Abbreviation St := (M World).

Definition print (l : Line) : St unit := λ w,
  (Ok tt, {| disk := disk w; suffix := suffix w;
             stdout := stdout w ++ [l]; ops := ops w |}).

(** [p.is_file()]. *)
Definition is_file (p : Path) : St bool := λ w,
  (Ok (bool_decide (is_Some (disk w !! p))), w).

(** [next(self.suffix[nm])]: a missing key gets a fresh [count(start=1)]. *)
Definition next_suffix (nm : string) : St nat := λ w,
  let n := default 1 (suffix w !! nm) in
  (Ok n, {| disk := disk w; suffix := <[nm := S n]> (suffix w);
            stdout := stdout w; ops := ops w |}).

(** [path.rename(dest)], that is [os.rename]. *)
Definition rename (path dest : Path) : St unit := λ w,
  match disk w !! path with
  | None => (Raise "FileNotFoundError", w)
  | Some f =>
      (Ok tt, {| disk := <[dest := f]> (delete path (disk w)); suffix := suffix w;
                 stdout := stdout w; ops := ops w ++ [OpRename path dest] |})
  end.

(** [shutil.copy2(str(source), str(dest))]: contents and metadata. *)
Definition copy2 (source dest : Path) : St unit := λ w,
  match disk w !! source with
  | None => (Raise "FileNotFoundError", w)
  | Some f =>
      if decide (source = dest) then (Raise "SameFileError", w)
      else
        (Ok tt, {| disk := <[dest := f]> (disk w); suffix := suffix w;
                   stdout := stdout w; ops := ops w ++ [OpCopy2 source dest] |})
  end.

Definition lift_res {A} (r : Res A) : St A := λ w, (r, w).

(** ['{0}-{1}{2}'.format(path.stem, n, path.suffix)]. *)
Definition suffixed_name (path : Path) (n : nat) : string :=
  stem_of (name path) +:+ "-" +:+ pretty n +:+ suffix_of (name path).

(** The [while destination.is_file()] loop of [_destination].  The loop
    stops at the first candidate that is not on disk, and a disk holds
    finitely many files; [fuel] bounds the iterations so that the
    definition is structural, and [destination_loop_spec] below shows
    that the bound [_destination] passes is never reached: the
    destination returned is not on disk. *)
Fixpoint destination_loop (fuel : nat) (path destination : Path) : St Path :=
  λ w,
    match is_file destination w with
    | (Ok true, w) =>
        match fuel with
        | O => (Ok destination, w)
        | S fuel' =>
            (n ← next_suffix (name path);
             destination ← lift_res (with_name path (suffixed_name path n));
             destination_loop fuel' path destination) w
        end
    | (_, w) => (Ok destination, w)
    end.

(** [RenameVisitor._destination]. *)
Definition _destination (avoid_collisions : bool) (path : Path) : St Path :=
  let destination := path in
  if avoid_collisions
  then λ w, destination_loop (S (S (size (disk w)))) path destination w
  else mret destination.

(** The character class [[^a-zA-Z0-9_-]] of [re.sub], on a code point. *)
Definition allowed (c : N) : bool :=
  ((97 <=? c) && (c <=? 122) || (65 <=? c) && (c <=? 90) ||
   (48 <=? c) && (c <=? 57) || (c =? 95) || (c =? 45))%N.

(** [re.sub('[^a-zA-Z0-9_-]', '_', text)]. *)
Fixpoint sanitize (text : list N) : string :=
  match text with
  | [] => ""
  | c :: text' =>
      String (if allowed c then ascii_of_N c else "_"%char) (sanitize text')
  end.

Section Visitor.
(** [bytes.decode()]: the text as code points, or [UnicodeDecodeError]. *)
Variable bytes_decode : bytes → Res (list N).
Variable avoid_collisions : bool.

(** [[re.sub(...) for b in barcodes]]. *)
Definition values_of (barcodes : list Barcode) : Res (list string) :=
  mapM (λ b, text ← bytes_decode (b_data b); mret (sanitize text)) barcodes.

(** The [for value in values] loop, with [first_destination] threaded. *)
Fixpoint values_loop (path : Path) (values : list string)
    (first_destination : option Path) : St unit :=
  match values with
  | [] => mret tt
  | value :: values' =>
      dest ← lift_res (with_name path (value +:+ suffix_of (name path)));
      dest ← _destination avoid_collisions dest;
      let source := match first_destination with
                    | Some d => d
                    | None => path
                    end in
      let rename_it := negb (bool_decide (is_Some first_destination)) in
      _ ← (if decide (source = dest) then print LAlreadyNamed
           else
             exists_ ← is_file dest;
             if (exists_ : bool) then print (LCannotRename dest)
             else if rename_it then
               _ ← rename path dest; print (LRenamed dest)
             else
               _ ← copy2 source dest; print (LCopied dest));
      let first_destination := match first_destination with
                               | Some d => Some d
                               | None => Some dest
                               end in
      values_loop path values' first_destination
  end.

(** [RenameVisitor.result]. *)
Definition result (path : Path) (result : Driver.PyResult) : St unit :=
  match result with
  | Driver.PyNone => raise "TypeError: cannot unpack non-iterable NoneType object"
  | Driver.PySeq strategy barcodes =>
      _ ← print (LPath path);
      match barcodes with
      | [] => print LNoBarcodes
      | _ :: _ =>
          values ← lift_res (values_of barcodes);
          values_loop path values None
      end
  end.

End Visitor.

(** *** Names with a numeric suffix *)

Lemma string_length_app (a b : string) :
  String.length (a +:+ b) = String.length a + String.length b.
Proof. induction a as [|c a IH]; simpl; [done | by rewrite IH]. Qed.

Lemma string_app_inv_tail (a b t : string) : a +:+ t = b +:+ t → a = b.
Proof.
  revert b. induction a as [|c a IH]; intros [|c' b] H; simpl in *.
  - done.
  - apply (f_equal String.length) in H.
    rewrite !string_length_app in H. simpl in H.
    rewrite ?string_length_app in H. exfalso. lia.
  - apply (f_equal String.length) in H.
    rewrite !string_length_app in H. simpl in H.
    rewrite ?string_length_app in H. exfalso. lia.
  - injection H as -> H. f_equal. by apply IH.
Qed.

Lemma suffixed_name_inj (path : Path) (n m : nat) :
  suffixed_name path n = suffixed_name path m → n = m.
Proof.
  unfold suffixed_name. intros H.
  apply (inj (String.app _)) in H. apply (inj (String.app _)) in H.
  apply string_app_inv_tail in H. by apply (inj pretty) in H.
Qed.

Lemma suffixed_name_nonempty (path : Path) (n : nat) : suffixed_name path n ≠ "".
Proof.
  unfold suffixed_name. intros H. apply (f_equal String.length) in H.
  rewrite !string_length_app in H. simpl in H. lia.
Qed.

(** The [k]-th candidate for [path]: same directory, suffixed name. *)
Definition candidate (path : Path) (k : nat) : Path :=
  {| parent := parent path; name := suffixed_name path k |}.

Lemma with_name_suffixed (path : Path) (k : nat) :
  name path ≠ "" → with_name path (suffixed_name path k) = Ok (candidate path k).
Proof.
  intros Hn. unfold with_name. rewrite decide_False by done.
  by rewrite decide_False by apply suffixed_name_nonempty.
Qed.

Lemma candidate_inj (path : Path) (n m : nat) :
  candidate path n = candidate path m → n = m.
Proof. intros [=]. by eapply suffixed_name_inj. Qed.

(** The next number [self.suffix] gives for a name. *)
Definition counter (w : World) (nm : string) : nat := default 1 (suffix w !! nm).

(** *** The loop of [_destination] *)

(** With more fuel than files that can still be in the way ([X] holds
    the candidates on disk from the current number on), the loop ends at
    a destination that is not on disk, having tried the candidates
    [counter], [counter + 1], ... in turn. *)
Lemma destination_loop_spec (fuel : nat) (X : gset Path) (path d : Path) (w : World) :
  name path ≠ "" →
  (∀ k, counter w (name path) ≤ k →
        is_Some (disk w !! candidate path k) → candidate path k ∈ X) →
  (is_Some (disk w !! d) → size X < fuel) →
  ∃ d' sfx,
    destination_loop fuel path d w =
      (Ok d', {| disk := disk w; suffix := sfx; stdout := stdout w; ops := ops w |}) ∧
    disk w !! d' = None ∧
    ((d' = d ∧ sfx = suffix w) ∨
     (∃ k, counter w (name path) ≤ k ∧ d' = candidate path k ∧
           sfx = <[name path := S k]> (suffix w) ∧
           is_Some (disk w !! d) ∧
           ∀ j, counter w (name path) ≤ j < k →
                is_Some (disk w !! candidate path j))).
Proof.
  intros Hname. revert X d w.
  induction fuel as [|fuel IH]; intros X d w HX Hfuel.
  - exists d, (suffix w). simpl. unfold is_file.
    destruct (disk w !! d) as [f|] eqn:Hd.
    + exfalso. assert (size X < 0) by (apply Hfuel; eauto). lia.
    + rewrite bool_decide_eq_false_2 by (by intros [? ?]).
      split_and!; [by destruct w | done | by left].
  - simpl. unfold is_file.
    destruct (disk w !! d) as [f|] eqn:Hd.
    2:{ rewrite bool_decide_eq_false_2 by (by intros [? ?]).
        exists d, (suffix w). split_and!; [by destruct w | done | by left]. }
    rewrite bool_decide_eq_true_2 by eauto.
    unfold mbind, M_bind, next_suffix, lift_res. simpl.
    rewrite with_name_suffixed by done.
    fold (counter w (name path)). set (n := counter w (name path)).
    set (w1 := {| disk := disk w; suffix := <[name path := S n]> (suffix w);
                  stdout := stdout w; ops := ops w |}).
    assert (counter w1 (name path) = S n) as Hc1.
    { unfold counter, w1. simpl. by rewrite lookup_insert_eq. }
    destruct (IH (X ∖ {[candidate path n]}) (candidate path n) w1)
      as (d' & sfx & Hrun & Hfree & Hcase).
    + intros k Hk Hon. rewrite Hc1 in Hk. apply elem_of_difference. split.
      * apply HX; [lia | done].
      * rewrite elem_of_singleton. intros ?%candidate_inj. lia.
    + intros Hon. simpl in Hon.
      assert (candidate path n ∈ X) as Hin by (apply HX; [lia | done]).
      assert (size X < S fuel) by (apply Hfuel; eauto).
      rewrite size_difference by set_solver. rewrite size_singleton.
      assert (size X ≠ 0); [|lia].
      intros ?%size_empty_inv. set_solver.
    + exists d', sfx. split_and!; [exact Hrun | exact Hfree |].
      right. destruct Hcase as [[-> ->] | (k & Hk & -> & -> & Hon & Hbetween)].
      * exists n. split_and!; [done | done | done | eauto |]. intros j Hj. lia.
      * rewrite Hc1 in Hk, Hbetween. exists k.
        split_and!; [lia | done | | eauto |].
        -- simpl. by rewrite insert_insert_eq.
        -- intros j Hj. destruct (decide (j = n)) as [->|]; [done|].
           apply Hbetween. lia.
Qed.

(** What [_destination] returns for [c] and what it leaves in
    [self.suffix]: [c] itself when it avoids nothing or [c] is free,
    else the first numbered candidate of [c], from the current number
    of [c]'s name on, that is not on disk. *)
Definition destination_post (avoid : bool) (c : Path) (w : World)
    (d : Path) (sfx : gmap string nat) : Prop :=
  (d = c ∧ sfx = suffix w ∧ (avoid = true → disk w !! c = None)) ∨
  (avoid = true ∧ is_Some (disk w !! c) ∧
   ∃ k, counter w (name c) ≤ k ∧ d = candidate c k ∧
        sfx = <[name c := S k]> (suffix w) ∧
        disk w !! d = None ∧
        ∀ j, counter w (name c) ≤ j < k → is_Some (disk w !! candidate c j)).

Definition set_suffix (w : World) (sfx : gmap string nat) : World :=
  {| disk := disk w; suffix := sfx; stdout := stdout w; ops := ops w |}.

Lemma destination_spec (avoid : bool) (c : Path) (w : World) :
  name c ≠ "" →
  ∃ d sfx, _destination avoid c w = (Ok d, set_suffix w sfx) ∧
           destination_post avoid c w d sfx.
Proof.
  intros Hname. destruct avoid; simpl.
  - destruct (destination_loop_spec (S (S (size (disk w)))) (dom (disk w)) c c w)
      as (d & sfx & Hrun & Hfree & Hcase); [done| | |].
    + intros k _ Hon. by apply elem_of_dom.
    + intros _. rewrite size_dom. lia.
    + exists d, sfx. split; [exact Hrun|].
      destruct Hcase as [[-> ->] | (k & Hk & -> & -> & Hon & Hbetween)].
      * by left.
      * right. split_and!; [done..|]. by exists k.
  - exists c, (suffix w). split; [by destruct w|]. by left.
Qed.

(** What [destination_post] describes is one destination and one
    state of [self.suffix]. *)
Lemma destination_post_unique (avoid : bool) (c : Path) (w : World)
    (d d' : Path) (sfx sfx' : gmap string nat) :
  destination_post avoid c w d sfx → destination_post avoid c w d' sfx' →
  d = d' ∧ sfx = sfx'.
Proof.
  intros [(-> & -> & Hfree) | (Ha & [f Hf] & k & Hk & -> & -> & Hnone & Hbetween)]
         [(-> & -> & Hfree') | (Ha' & [f' Hf'] & k' & Hk' & -> & -> & Hnone' & Hbetween')].
  - done.
  - specialize (Hfree Ha'). congruence.
  - specialize (Hfree' Ha). congruence.
  - assert (k = k') as ->; [|done].
    destruct (Nat.lt_trichotomy k k') as [Hlt | [-> | Hgt]]; [|done|].
    + destruct (Hbetween' k) as [? Hon]; [lia | congruence].
    + destruct (Hbetween k') as [? Hon]; [lia | congruence].
Qed.

(** The bound that [_destination] passes to the loop is enough: any
    larger bound gives the same destination and the same state. *)
Lemma destination_loop_enough (fuel : nat) (path : Path) (w : World) :
  name path ≠ "" → S (size (disk w)) < fuel →
  destination_loop fuel path path w = _destination true path w.
Proof.
  intros Hname Hfuel.
  destruct (destination_spec true path w Hname) as (d & sfx & -> & Hpost).
  destruct (destination_loop_spec fuel (dom (disk w)) path path w)
    as (d' & sfx' & -> & Hfree & Hcase); [done| | |].
  - intros k _ Hon. by apply elem_of_dom.
  - intros _. rewrite size_dom. lia.
  - assert (destination_post true path w d' sfx') as Hpost'.
    { destruct Hcase as [[-> ->] | (k & Hk & -> & -> & Hon & Hbetween)].
      - by left.
      - right. split_and!; [done..|]. by exists k. }
    by destruct (destination_post_unique _ _ _ _ _ _ _ Hpost Hpost') as [-> ->].
Qed.

(** The destination is free whenever collisions are avoided. *)
Lemma destination_post_free (c : Path) (w : World) d sfx :
  destination_post true c w d sfx → disk w !! d = None.
Proof.
  intros [(-> & _ & H) | (_ & _ & k & _ & _ & _ & H & _)]; [by apply H | done].
Qed.

(** A free path is its own destination. *)
Lemma destination_post_plain (avoid : bool) (c : Path) (w : World) d sfx :
  disk w !! c = None → destination_post avoid c w d sfx → d = c ∧ sfx = suffix w.
Proof.
  intros Hc [(-> & -> & _) | (_ & [f Hf] & _)]; [done | congruence].
Qed.

(** *** The loop over the values *)

(** The destination tried first for a value: the value with the
    extension of the source, in the directory of the source. *)
Definition plain (path : Path) (value : string) : Path :=
  {| parent := parent path; name := value +:+ suffix_of (name path) |}.

(** [d] is a destination for [value]: its plain name, or that name with
    a numeric suffix before the extension. *)
Definition destination_for (path : Path) (value : string) (d : Path) : Prop :=
  d = plain path value ∨ ∃ k, d = candidate (plain path value) k.

Definition say (w : World) (l : Line) : World :=
  {| disk := disk w; suffix := suffix w; stdout := stdout w ++ [l]; ops := ops w |}.

(** The world after the branch of lines 160-170 for the first value. *)
Definition first_step (path d : Path) (f : FileData) (w : World) : World :=
  if decide (path = d) then say w LAlreadyNamed
  else if bool_decide (is_Some (disk w !! d)) then say w (LCannotRename d)
  else {| disk := <[d := f]> (delete path (disk w)); suffix := suffix w;
          stdout := stdout w ++ [LRenamed d];
          ops := ops w ++ [OpRename path d] |}.

(** The world after that branch for a later value. *)
Definition next_step (d1 d : Path) (f1 : FileData) (w : World) : World :=
  if decide (d1 = d) then say w LAlreadyNamed
  else if bool_decide (is_Some (disk w !! d)) then say w (LCannotRename d)
  else {| disk := <[d := f1]> (disk w); suffix := suffix w;
          stdout := stdout w ++ [LCopied d];
          ops := ops w ++ [OpCopy2 d1 d] |}.

Lemma with_name_plain (path : Path) (v : string) :
  name path ≠ "" → v +:+ suffix_of (name path) ≠ "" →
  with_name path (v +:+ suffix_of (name path)) = Ok (plain path v).
Proof. intros ??. unfold with_name. by rewrite !decide_False by done. Qed.

Lemma values_loop_first (avoid : bool) (path : Path) v vs f w d sfx :
  name path ≠ "" → v +:+ suffix_of (name path) ≠ "" →
  disk w !! path = Some f →
  _destination avoid (plain path v) w = (Ok d, set_suffix w sfx) →
  values_loop avoid path (v :: vs) None w =
    values_loop avoid path vs (Some d) (first_step path d f (set_suffix w sfx)).
Proof.
  intros Hname Hv Hfile Hdest. simpl.
  unfold mbind, M_bind, lift_res. rewrite with_name_plain by done.
  rewrite Hdest. unfold first_step.
  destruct (decide (path = d)) as [->|Hne]; [done|].
  unfold is_file. simpl.
  destruct (bool_decide (is_Some (disk w !! d))); [done|].
  unfold rename. simpl. by rewrite Hfile.
Qed.

Lemma values_loop_next (avoid : bool) (path : Path) v vs d1 f1 w d sfx :
  name path ≠ "" → v +:+ suffix_of (name path) ≠ "" →
  disk w !! d1 = Some f1 →
  _destination avoid (plain path v) w = (Ok d, set_suffix w sfx) →
  values_loop avoid path (v :: vs) (Some d1) w =
    values_loop avoid path vs (Some d1) (next_step d1 d f1 (set_suffix w sfx)).
Proof.
  intros Hname Hv Hfile Hdest. simpl.
  unfold mbind, M_bind, lift_res. rewrite with_name_plain by done.
  rewrite Hdest. unfold next_step.
  destruct (decide (d1 = d)) as [->|Hne]; [done|].
  unfold is_file. simpl.
  destruct (bool_decide (is_Some (disk w !! d))); [done|].
  unfold copy2. simpl. rewrite Hfile. by rewrite decide_False by done.
Qed.

Lemma destination_post_for (avoid : bool) (path : Path) v w d sfx :
  destination_post avoid (plain path v) w d sfx → destination_for path v d.
Proof.
  intros [(-> & _) | (_ & _ & k & _ & -> & _)]; [by left | right; eauto].
Qed.

(** The values after the first: every change of the disk is a copy of
    the first destination [d1]; when collisions are avoided, or the
    plain destinations are free and distinct, every value gets its
    copy. *)
Lemma values_loop_rest (avoid : bool) (path d1 : Path) (f1 : FileData)
    (vs : list string) (w : World) :
  name path ≠ "" →
  Forall (λ v, v +:+ suffix_of (name path) ≠ "") vs →
  disk w !! d1 = Some f1 →
  ∃ ds w',
    values_loop avoid path vs (Some d1) w = (Ok tt, w') ∧
    ops w' = ops w ++ (OpCopy2 d1 <$> ds) ∧
    Forall (λ d, disk w' !! d = Some f1 ∧ ∃ v, v ∈ vs ∧ destination_for path v d) ds ∧
    (∀ q, q ∉ ds → disk w' !! q = disk w !! q) ∧
    (avoid = true → Forall2 (destination_for path) vs ds) ∧
    (NoDup (plain path <$> vs) →
     Forall (λ c, disk w !! c = None) (plain path <$> vs) →
     ds = plain path <$> vs).
Proof.
  intros Hname Hvs. revert w.
  induction Hvs as [|v vs Hv Hvs IH]; intros w Hd1.
  - exists [], w. simpl. rewrite app_nil_r.
    split_and!; [done..| |done]. intros _. constructor.
  - destruct (destination_spec avoid (plain path v) w) as (d & sfx & Hdest & Hpost);
      [done|].
    rewrite (values_loop_next avoid path v vs d1 f1 w d sfx) by done.
    set (w1 := next_step d1 d f1 (set_suffix w sfx)).
    assert (disk w1 !! d1 = Some f1) as Hd1'.
    { unfold w1, next_step. destruct (decide (d1 = d)); [done|].
      destruct (bool_decide _); [done|]. simpl. by rewrite lookup_insert_ne. }
    destruct (IH w1 Hd1') as (ds & w' & Hrun & Hops & Hds & Hframe & Hall & Hexact).
    (* Whether this value's destination is copied to. *)
    destruct (decide (d1 = d)) as [Heq|Hne].
    { (* already named: nothing happens for this value *)
      assert (w1 = say (set_suffix w sfx) LAlreadyNamed) as Hw1.
      { unfold w1, next_step. by rewrite decide_True. }
      exists ds, w'. split_and!.
      - done.
      - by rewrite Hops, Hw1.
      - eapply Forall_impl; [exact Hds|]. intros q (? & v' & ? & ?).
        split; [done|]. exists v'. split; [by right | done].
      - intros q Hq. rewrite (Hframe q Hq). by rewrite Hw1.
      - intros ->. apply destination_post_free in Hpost. congruence.
      - intros Hnd Hfree. apply Forall_cons in Hfree as [Hc _].
        apply (destination_post_plain _ _ _ _ _ Hc) in Hpost as [-> _].
        simpl in Hc. congruence. }
    destruct (disk w !! d) as [fd|] eqn:Hd.
    { (* the destination exists: the value is skipped *)
      assert (w1 = say (set_suffix w sfx) (LCannotRename d)) as Hw1.
      { unfold w1, next_step. rewrite decide_False by done. simpl.
        rewrite Hd. by rewrite bool_decide_eq_true_2 by eauto. }
      exists ds, w'. split_and!.
      - done.
      - by rewrite Hops, Hw1.
      - eapply Forall_impl; [exact Hds|]. intros q (? & v' & ? & ?).
        split; [done|]. exists v'. split; [by right | done].
      - intros q Hq. rewrite (Hframe q Hq). by rewrite Hw1.
      - intros ->. apply destination_post_free in Hpost. congruence.
      - intros Hnd Hfree. apply Forall_cons in Hfree as [Hc _].
        apply (destination_post_plain _ _ _ _ _ Hc) in Hpost as [-> _].
        congruence. }
    (* the copy *)
    assert (w1 = {| disk := <[d := f1]> (disk w); suffix := sfx;
                    stdout := stdout w ++ [LCopied d];
                    ops := ops w ++ [OpCopy2 d1 d] |}) as Hw1.
    { unfold w1, next_step. rewrite decide_False by done. simpl.
      rewrite Hd. by rewrite bool_decide_eq_false_2 by (by intros [? ?]). }
    exists (d :: ds), w'. split_and!.
    + done.
    + rewrite Hops, Hw1. simpl. by rewrite <- app_assoc.
    + constructor.
      * split.
        -- destruct (decide (d ∈ ds)) as [Hin|Hnin].
           ++ rewrite Forall_forall in Hds. by apply Hds.
           ++ rewrite (Hframe d Hnin), Hw1. simpl. by rewrite lookup_insert_eq.
        -- exists v. split; [by left | by eapply destination_post_for].
      * eapply Forall_impl; [exact Hds|]. intros q (? & v' & ? & ?).
        split; [done|]. exists v'. split; [by right | done].
    + intros q Hq. apply not_elem_of_cons in Hq as [Hqd Hq].
      rewrite (Hframe q Hq), Hw1. simpl. by rewrite lookup_insert_ne.
    + intros Ha. constructor; [by eapply destination_post_for | by apply Hall].
    + intros Hnd Hfree. rewrite fmap_cons in Hnd, Hfree.
      apply NoDup_cons in Hnd as [Hnin Hnd].
      apply Forall_cons in Hfree as [Hc Hfree].
      apply (destination_post_plain _ _ _ _ _ Hc) in Hpost as [-> ->].
      rewrite fmap_cons. f_equal. apply Hexact; [done|].
      rewrite Forall_forall in Hfree |- *. intros c Hcin.
      rewrite Hw1. simpl. rewrite lookup_insert_ne; [by apply Hfree|].
      intros <-. done.
Qed.

Lemma values_of_length (bytes_decode : bytes → Res (list N))
    (barcodes : list Barcode) (values : list string) :
  values_of bytes_decode barcodes = Ok values → length values = length barcodes.
Proof.
  revert values. unfold values_of.
  induction barcodes as [|b bs IH]; intros values; simpl.
  - by intros [= <-].
  - unfold mbind, Res_bind.
    destruct (bytes_decode (b_data b)); [|done]. simpl.
    match goal with |- context [mapM ?f bs] =>
      destruct (mapM f bs) as [vs|] eqn:E end; [|done].
    unfold mret, Res_ret. intros [= <-]. simpl. f_equal. by apply IH.
Qed.


(** *** Stem, suffix and candidates *)

Lemma string_app_cons (c : ascii) (a b : string) :
  String c a +:+ b = String c (a +:+ b).
Proof. done. Qed.

Lemma string_app_nil_r (a : string) : a +:+ "" = a.
Proof.
  induction a as [|c a IH]; [done|]. by rewrite string_app_cons, IH.
Qed.

Lemma substring_all (a : string) : substring 0 (String.length a) a = a.
Proof. induction a as [|c a IH]; simpl; [done | by rewrite IH]. Qed.

Lemma substring_split (a : string) (i : nat) :
  i ≤ String.length a →
  substring 0 i a +:+ substring i (String.length a - i) a = a.
Proof.
  revert i. induction a as [|c a IH]; intros [|i] Hi; simpl in *; try lia.
  - done.
  - by rewrite substring_all.
  - rewrite string_app_cons, IH by lia. done.
Qed.

Lemma stem_suffix (nm : string) : stem_of nm +:+ suffix_of nm = nm.
Proof.
  unfold stem_of, suffix_of. destruct (rfind_dot nm) as [i|].
  - destruct (has_suffix_at nm i) eqn:E.
    + apply substring_split. unfold has_suffix_at in E.
      apply andb_true_iff in E as [_ E]. apply Nat.ltb_lt in E. lia.
    + apply string_app_nil_r.
  - apply string_app_nil_r.
Qed.

Lemma candidate_ne (c : Path) (k : nat) : candidate c k ≠ c.
Proof.
  destruct c as [dir nm]. unfold candidate, suffixed_name. simpl. intros [= H].
  rewrite <- (stem_suffix nm) in H at 3.
  apply (inj (String.app _)) in H.
  apply (f_equal String.length) in H. rewrite !string_length_app in H.
  simpl in H. lia.
Qed.

Lemma counter_insert (w : World) (nm nm' : string) (n : nat) :
  counter (set_suffix w (<[nm := n]> (suffix w))) nm' =
    if decide (nm = nm') then n else counter w nm'.
Proof.
  unfold counter. simpl. rewrite lookup_insert. by destruct (decide (nm = nm')).
Qed.

(** *** The number goes before the extension *)

Lemma rfind_dot_app (a b : string) :
  rfind_dot a = None →
  rfind_dot (a +:+ b) = (λ j, String.length a + j) <$> rfind_dot b.
Proof.
  induction a as [|c a IH]; intros Ha.
  - change (rfind_dot b = (λ j, 0 + j) <$> rfind_dot b).
    by destruct (rfind_dot b).
  - rewrite string_app_cons. simpl in *.
    destruct (rfind_dot a); [done|].
    destruct (Ascii.eqb c ".") eqn:Ec; [done|].
    rewrite IH by done. by destruct (rfind_dot b).
Qed.

Lemma rfind_dot_split (nm : string) (i : nat) :
  rfind_dot nm = Some i →
  ∃ a b, nm = a +:+ String "." b ∧ String.length a = i ∧ rfind_dot b = None.
Proof.
  revert i. induction nm as [|c nm IH]; intros i; simpl; [done|].
  destruct (rfind_dot nm) as [j|] eqn:Ej.
  - intros [= <-]. destruct (IH j eq_refl) as (a & b & -> & <- & Hb).
    by exists (String c a), b.
  - destruct (Ascii.eqb_spec c "."); [|done].
    intros [= <-]. subst c. by exists EmptyString, nm.
Qed.

Lemma substring_app_drop (a t : string) :
  substring (String.length a) (String.length t) (a +:+ t) = t.
Proof.
  induction a as [|c a IH]; simpl.
  - apply substring_all.
  - exact IH.
Qed.

Lemma substring_app_take (a t : string) :
  substring 0 (String.length a) (a +:+ t) = a.
Proof.
  induction a as [|c a IH]; simpl.
  - by destruct t.
  - by rewrite IH.
Qed.

(** A suffix is empty, or a dot followed by a non-empty extension
    without dots. *)
Lemma suffix_of_shape (nm : string) :
  suffix_of nm = EmptyString ∨
  ∃ ext, suffix_of nm = String "." ext ∧ rfind_dot ext = None ∧ ext ≠ EmptyString.
Proof.
  unfold suffix_of. destruct (rfind_dot nm) as [i|] eqn:Ei; [|by left].
  destruct (has_suffix_at nm i) eqn:E; [|by left]. right.
  destruct (rfind_dot_split nm i Ei) as (a & b & -> & <- & Hb).
  unfold has_suffix_at in E. apply andb_true_iff in E as [_ E].
  apply Nat.ltb_lt in E. rewrite string_length_app in E. simpl in E.
  exists b. split_and!; [|done|].
  - rewrite string_length_app.
    replace (String.length a + String.length (String "." b) - String.length a)
      with (String.length (String "." b)) by lia.
    apply substring_app_drop.
  - intros ->. simpl in E. lia.
Qed.

Lemma sanitize_no_dot (text : list N) : rfind_dot (sanitize text) = None.
Proof.
  induction text as [|c text IH]; simpl; [done|]. rewrite IH.
  destruct (allowed c) eqn:Ea; [|done].
  destruct (Ascii.eqb_spec (ascii_of_N c) "."); [|done]. exfalso.
  assert (c < 256)%N as Hc.
  { unfold allowed in Ea.
    repeat (apply orb_true_iff in Ea as [Ea|Ea]);
      rewrite ?andb_true_iff, ?N.leb_le, ?N.eqb_eq in Ea; lia. }
  assert (c = 46%N) as ->.
  { rewrite <- (N_ascii_embedding c Hc). by rewrite e. }
  done.
Qed.

(** For a non-empty sanitized value the plain destination has the value
    as stem and the extension of the source as suffix, so a numbered
    candidate reads [value-number.ext]. *)
Lemma numbered_before_extension (path : Path) (text : list N) (k : nat) :
  sanitize text ≠ EmptyString →
  stem_of (name (plain path (sanitize text))) = sanitize text ∧
  suffix_of (name (plain path (sanitize text))) = suffix_of (name path) ∧
  name (candidate (plain path (sanitize text)) k) =
    sanitize text +:+ "-" +:+ pretty k +:+ suffix_of (name path).
Proof.
  intros Hv. set (v := sanitize text) in *.
  assert (rfind_dot v = None) as Hdot by apply sanitize_no_dot.
  assert (stem_of (v +:+ suffix_of (name path)) = v ∧
          suffix_of (v +:+ suffix_of (name path)) = suffix_of (name path))
    as [Hstem Hsuffix].
  { destruct (suffix_of_shape (name path)) as [-> | (ext & -> & Hext & Hne)].
    - rewrite string_app_nil_r. unfold stem_of, suffix_of. by rewrite Hdot.
    - unfold stem_of, suffix_of. rewrite rfind_dot_app by done.
      simpl. rewrite Hext. simpl. rewrite Nat.add_0_r.
      assert (has_suffix_at (v +:+ String "." ext) (String.length v) = true) as ->.
      { unfold has_suffix_at. rewrite string_length_app. simpl.
        apply andb_true_iff. split; apply Nat.ltb_lt.
        - destruct v; [done | simpl; lia].
        - destruct ext; [done | simpl; lia]. }
      split; [apply substring_app_take|].
      rewrite string_length_app.
      replace (String.length v + String.length (String "." ext) - String.length v)
        with (String.length (String "." ext)) by lia.
      apply substring_app_drop. }
  split_and!; [done | done |].
  unfold candidate, suffixed_name. simpl. by rewrite Hstem, Hsuffix.
Qed.

(** One barcode, collisions avoided: the file is renamed to the
    destination that [_destination] finds. *)
Lemma result_single (bytes_decode : bytes → Res (list N)) (path : Path)
    (strategy : option string) (b : Barcode) (v : string) (f : FileData)
    (w : World) :
  values_of bytes_decode [b] = Ok [v] →
  disk w !! path = Some f →
  name path ≠ "" → v +:+ suffix_of (name path) ≠ "" →
  ∃ d sfx,
    destination_post true (plain path v) w d sfx ∧
    result bytes_decode true path (Driver.PySeq strategy [b]) w =
      (Ok tt, {| disk := <[d := f]> (delete path (disk w)); suffix := sfx;
                 stdout := stdout w ++ [LPath path; LRenamed d];
                 ops := ops w ++ [OpRename path d] |}).
Proof.
  intros Hvalues Hfile Hname Hv.
  unfold result. unfold mbind at 1, M_bind at 1. unfold print at 1.
  set (w0 := {| disk := disk w; suffix := suffix w;
                stdout := stdout w ++ [LPath path]; ops := ops w |}).
  unfold mbind, M_bind, lift_res. rewrite Hvalues.
  destruct (destination_spec true (plain path v) w0) as (d & sfx & Hdest & Hpost);
    [done|].
  exists d, sfx. split; [exact Hpost|].
  rewrite (values_loop_first true path v [] f w0 d sfx) by done.
  pose proof (destination_post_free _ _ _ _ Hpost) as Hfree. simpl in Hfree.
  unfold first_step. rewrite decide_False by congruence. simpl.
  rewrite Hfree. rewrite bool_decide_eq_false_2 by (by intros [? ?]).
  simpl. by rewrite <- app_assoc.
Qed.

(** Two files in one directory, with the same extension, whose only
    barcode has the same value [v]: when neither the plain destination
    nor its first numbered candidate is on disk and the name has not
    been numbered before, the first file gets the plain name and the
    second the candidate numbered 1. *)
Lemma two_files_same_value (bytes_decode : bytes → Res (list N))
    (p1 p2 : Path) (s1 s2 : option string) (b1 b2 : Barcode) (v : string)
    (f1 f2 : FileData) (w : World) :
  values_of bytes_decode [b1] = Ok [v] →
  values_of bytes_decode [b2] = Ok [v] →
  parent p1 = parent p2 → suffix_of (name p1) = suffix_of (name p2) →
  p1 ≠ p2 → name p1 ≠ "" → name p2 ≠ "" → v +:+ suffix_of (name p1) ≠ "" →
  disk w !! p1 = Some f1 → disk w !! p2 = Some f2 →
  disk w !! plain p1 v = None →
  disk w !! candidate (plain p1 v) 1 = None →
  suffix w !! name (plain p1 v) = None →
  ∃ w',
    (_ ← result bytes_decode true p1 (Driver.PySeq s1 [b1]);
     result bytes_decode true p2 (Driver.PySeq s2 [b2])) w = (Ok tt, w') ∧
    ops w' = ops w ++ [OpRename p1 (plain p1 v);
                       OpRename p2 (candidate (plain p1 v) 1)] ∧
    disk w' !! plain p1 v = Some f1 ∧
    disk w' !! candidate (plain p1 v) 1 = Some f2 ∧
    disk w' !! p1 = None ∧ disk w' !! p2 = None ∧
    suffix w' !! name (plain p1 v) = Some 2.
Proof.
  intros Hv1 Hv2 Hparent Hsuffix Hne Hn1 Hn2 Hv Hf1 Hf2 Hplain Hcand Hfresh.
  set (x := plain p1 v) in *. set (x1 := candidate x 1) in *.
  assert (plain p2 v = x) as Hx2.
  { unfold x, plain. by rewrite Hparent, Hsuffix. }
  assert (x1 ≠ x) as Hx1x by apply candidate_ne.
  assert (p1 ≠ x ∧ p1 ≠ x1 ∧ p2 ≠ x ∧ p2 ≠ x1) as (? & ? & ? & ?).
  { split_and!; congruence. }
  destruct (result_single bytes_decode p1 s1 b1 v f1 w) as (d & sfx & Hpost & Hrun1);
    [done..|].
  apply (destination_post_plain true x w d sfx Hplain) in Hpost as [-> ->].
  unfold mbind at 1, M_bind at 1. rewrite Hrun1.
  match goal with |- context [result _ _ _ _ ?w2] => set (w1 := w2) end.
  assert (disk w1 !! p2 = Some f2) as Hf2'.
  { unfold w1. simpl. rewrite lookup_insert_ne by done.
    by rewrite lookup_delete_ne. }
  destruct (result_single bytes_decode p2 s2 b2 v f2 w1) as (d & sfx & Hpost & Hrun2);
    [done | done | done | by rewrite <- Hsuffix |].
  rewrite Hx2 in Hpost.
  destruct Hpost as [(_ & _ & Habs) | (_ & _ & k & Hk & -> & -> & Hfree & Hbetween)].
  { exfalso. specialize (Habs eq_refl). unfold w1 in Habs. simpl in Habs.
    by rewrite lookup_insert_eq in Habs. }
  assert (counter w1 (name x) = 1) as Hc.
  { change (default 1 (suffix w !! name x) = 1). by rewrite Hfresh. }
  assert (disk w1 !! x1 = None) as Hx1free.
  { unfold w1. simpl. rewrite lookup_insert_ne by done.
    by rewrite lookup_delete_ne. }
  assert (k = 1) as ->.
  { rewrite Hc in Hk, Hbetween. destruct (decide (k = 1)); [done|].
    destruct (Hbetween 1) as [? Hon]; [lia|]. fold x1 in Hon. congruence. }
  fold x1 in Hrun2, Hfree. rewrite Hrun2.
  eexists. split; [reflexivity|]. unfold w1. simpl.
  split_and!.
  - by rewrite <- app_assoc.
  - rewrite lookup_insert_ne by done. rewrite lookup_delete_ne by done.
    by rewrite lookup_insert_eq.
  - by rewrite lookup_insert_eq.
  - rewrite lookup_insert_ne by done. rewrite lookup_delete_ne by done.
    rewrite lookup_insert_ne by done. by rewrite lookup_delete_eq.
  - rewrite lookup_insert_ne by done. by rewrite lookup_delete_eq.
  - by rewrite lookup_insert_eq.
Qed.


(** *** Edge cases of the rename *)

Ltac finish_world :=
  unfold mret, M_ret, say, set_suffix; simpl; rewrite <- ?app_assoc; reflexivity.

Lemma set_suffix_same (w : World) : set_suffix w (suffix w) = w.
Proof. by destruct w. Qed.

Lemma first_step_same (path : Path) (f : FileData) (w : World) :
  first_step path path f w = say w LAlreadyNamed.
Proof. unfold first_step. by rewrite decide_True. Qed.

Lemma first_step_taken (path d : Path) (f : FileData) (w : World) :
  path ≠ d → is_Some (disk w !! d) → first_step path d f w = say w (LCannotRename d).
Proof.
  intros ??. unfold first_step. rewrite decide_False by done.
  by rewrite bool_decide_eq_true_2.
Qed.

Lemma first_step_free (path d : Path) (f : FileData) (w : World) :
  path ≠ d → disk w !! d = None →
  first_step path d f w =
    {| disk := <[d := f]> (delete path (disk w)); suffix := suffix w;
       stdout := stdout w ++ [LRenamed d]; ops := ops w ++ [OpRename path d] |}.
Proof.
  intros ? Hd. unfold first_step. rewrite decide_False by done.
  rewrite bool_decide_eq_false_2; [done|]. rewrite Hd. by intros [? ?].
Qed.

Lemma next_step_free (d1 d : Path) (f1 : FileData) (w : World) :
  d1 ≠ d → disk w !! d = None →
  next_step d1 d f1 w =
    {| disk := <[d := f1]> (disk w); suffix := suffix w;
       stdout := stdout w ++ [LCopied d]; ops := ops w ++ [OpCopy2 d1 d] |}.
Proof.
  intros ? Hd. unfold next_step. rewrite decide_False by done.
  rewrite bool_decide_eq_false_2; [done|]. rewrite Hd. by intros [? ?].
Qed.

(** The start of [result] on a non-empty list of barcodes whose values
    decode. *)
Lemma result_values (bytes_decode : bytes → Res (list N)) (avoid : bool)
    (path : Path) (strategy : option string) (barcodes : list Barcode)
    (values : list string) (w : World) :
  barcodes ≠ [] →
  values_of bytes_decode barcodes = Ok values →
  result bytes_decode avoid path (Driver.PySeq strategy barcodes) w =
    values_loop avoid path values None (say w (LPath path)).
Proof.
  intros Hne Hv. unfold result. destruct barcodes as [|b bs]; [done|].
  unfold mbind, M_bind, print, lift_res. by rewrite Hv.
Qed.

(** X9. Without collision avoidance, a file whose destination exists
    already, as another file, is left alone: the disk is unchanged and
    the refusal is reported. *)
Theorem existing_destination_skipped (bytes_decode : bytes → Res (list N))
    (path : Path) (strategy : option string) (b : Barcode) (v : string)
    (f g : FileData) (w : World)
    (Hvalue : values_of bytes_decode [b] = Ok [v])
    (Hfile : disk w !! path = Some f)
    (Hname : name path ≠ "")
    (Hnonempty : v +:+ suffix_of (name path) ≠ "")
    (Htaken : disk w !! plain path v = Some g)
    (Hother : plain path v ≠ path) :
  result bytes_decode false path (Driver.PySeq strategy [b]) w =
    (Ok tt, {| disk := disk w; suffix := suffix w;
               stdout := stdout w ++ [LPath path; LCannotRename (plain path v)];
               ops := ops w |}).
Proof.
  rewrite (result_values _ _ _ _ _ [v]) by done.
  rewrite (values_loop_first false path v [] f _ (plain path v) (suffix w));
    [|done|done|done|by simpl].
  rewrite first_step_taken by (simpl; eauto).
  finish_world.
Qed.

(** X10. Without collision avoidance, renaming is done once for a
    barcode whose sanitized value is not empty: after the file has been
    renamed to that value, the sink finds the renamed file already
    correctly named and changes nothing.  (An empty value names the
    file by its extension alone, and a second pass has no name to
    give.) *)
Theorem rename_twice_is_once (bytes_decode : bytes → Res (list N))
    (path : Path) (strategy : option string) (b : Barcode) (text : list N)
    (f : FileData) (w : World)
    (Hdecode : bytes_decode (b_data b) = Ok text)
    (Hvalue : sanitize text ≠ "")
    (Hfile : disk w !! path = Some f)
    (Hname : name path ≠ "")
    (Hfree : disk w !! plain path (sanitize text) = None) :
  let d := plain path (sanitize text) in
  ∃ w1,
    result bytes_decode false path (Driver.PySeq strategy [b]) w = (Ok tt, w1) ∧
    ops w1 = ops w ++ [OpRename path d] ∧
    disk w1 !! d = Some f ∧
    result bytes_decode false d (Driver.PySeq strategy [b]) w1 =
      (Ok tt, {| disk := disk w1; suffix := suffix w1;
                 stdout := stdout w1 ++ [LPath d; LAlreadyNamed];
                 ops := ops w1 |}).
Proof.
  intros d. set (v := sanitize text) in *.
  assert (values_of bytes_decode [b] = Ok [v]) as Hv.
  { unfold values_of. simpl. unfold mbind, Res_bind. by rewrite Hdecode. }
  assert (v +:+ suffix_of (name path) ≠ "") as Hne.
  { intros E. apply (f_equal String.length) in E.
    rewrite string_length_app in E. destruct v; [done | simpl in E; lia]. }
  assert (path ≠ d) as Hpd
    by (intros E; unfold d in E; rewrite <- E in Hfree; congruence).
  destruct (numbered_before_extension path text 0 Hvalue) as (_ & Hsfx & _).
  fold v in Hsfx. fold d in Hsfx.
  assert (plain d v = d) as Hdd by (unfold plain at 1; by rewrite Hsfx).
  assert (name d ≠ "") as Hnamed by exact Hne.
  set (w1 := {| disk := <[d := f]> (delete path (disk w)); suffix := suffix w;
                stdout := stdout w ++ [LPath path; LRenamed d];
                ops := ops w ++ [OpRename path d] |}).
  assert (result bytes_decode false path (Driver.PySeq strategy [b]) w = (Ok tt, w1))
    as Hfirst.
  { rewrite (result_values _ _ _ _ _ [v]) by done.
    rewrite (values_loop_first false path v [] f _ d (suffix w));
      [|done|done|done|by simpl].
    rewrite first_step_free by done.
    unfold w1. finish_world. }
  exists w1. split_and!; [done | done | by apply lookup_insert_eq |].
  rewrite (result_values _ _ _ _ _ [v]) by done.
  rewrite (values_loop_first false d v [] f _ d (suffix w));
    [| done | by rewrite Hsfx | by apply lookup_insert_eq | by rewrite Hdd].
  rewrite first_step_same.
  finish_world.
Qed.

(** X11. With collision avoidance, a file that already bears the name
    of its barcode is not left alone: its own name counts as taken, and
    the file is renamed to the next numbered name. *)
Theorem avoidance_renames_named_file (bytes_decode : bytes → Res (list N))
    (path : Path) (strategy : option string) (b : Barcode) (v : string)
    (f : FileData) (w : World)
    (Hvalue : values_of bytes_decode [b] = Ok [v])
    (Hfile : disk w !! path = Some f)
    (Hname : name path ≠ "")
    (Hnamed : plain path v = path) :
  ∃ k, counter w (name path) ≤ k ∧
       disk w !! candidate path k = None ∧
       result bytes_decode true path (Driver.PySeq strategy [b]) w =
         (Ok tt, {| disk := <[candidate path k := f]> (delete path (disk w));
                    suffix := <[name path := S k]> (suffix w);
                    stdout := stdout w ++ [LPath path; LRenamed (candidate path k)];
                    ops := ops w ++ [OpRename path (candidate path k)] |}).
Proof.
  assert (v +:+ suffix_of (name path) ≠ "") as Hne.
  { intros E. apply Hname. rewrite <- Hnamed. exact E. }
  destruct (result_single bytes_decode path strategy b v f w Hvalue Hfile Hname Hne)
    as (d & sfx & Hpost & Hrun).
  rewrite Hnamed in Hpost.
  destruct Hpost as [(_ & _ & Habs) | (_ & _ & k & Hk & -> & -> & Hnone & _)].
  { specialize (Habs eq_refl). congruence. }
  exists k. split_and!; [done | done | exact Hrun].
Qed.

(** X12. Without collision avoidance, when the destination of the
    first value exists already, the rename is refused but the later
    values are still copied from that destination: what is copied is
    the file that was there, not the source, which stays where it
    is. *)
Theorem skipped_rename_copies_other_file (bytes_decode : bytes → Res (list N))
    (path : Path) (strategy : option string) (b1 b2 : Barcode) (v1 v2 : string)
    (f g : FileData) (w : World)
    (Hvalues : values_of bytes_decode [b1; b2] = Ok [v1; v2])
    (Hfile : disk w !! path = Some f)
    (Hname : name path ≠ "")
    (Hne1 : v1 +:+ suffix_of (name path) ≠ "")
    (Hne2 : v2 +:+ suffix_of (name path) ≠ "")
    (Htaken : disk w !! plain path v1 = Some g)
    (Hother : plain path v1 ≠ path)
    (Hfree : disk w !! plain path v2 = None) :
  result bytes_decode false path (Driver.PySeq strategy [b1; b2]) w =
    (Ok tt, {| disk := <[plain path v2 := g]> (disk w); suffix := suffix w;
               stdout := stdout w ++ [LPath path; LCannotRename (plain path v1);
                                      LCopied (plain path v2)];
               ops := ops w ++ [OpCopy2 (plain path v1) (plain path v2)] |}).
Proof.
  assert (plain path v1 ≠ plain path v2) as Hne by (intros E; rewrite E in *; congruence).
  rewrite (result_values _ _ _ _ _ [v1; v2]) by done.
  rewrite (values_loop_first false path v1 [v2] f _ (plain path v1) (suffix w));
    [|done|done|done|by simpl].
  rewrite first_step_taken by (simpl; eauto).
  match goal with |- values_loop _ _ _ _ ?w1 = _ => set (w1' := w1) end.
  rewrite (values_loop_next false path v2 [] (plain path v1) g w1'
             (plain path v2) (suffix w));
    [|done|done|done|done].
  rewrite next_step_free by done.
  unfold w1'. finish_world.
Qed.

(** *** The sanitized value *)

Lemma allowed_byte (c : N) : allowed c = true → (c < 256)%N ∧ c ≠ 46%N ∧ c ≠ 47%N.
Proof.
  unfold allowed. intros Ea.
  repeat (apply orb_true_iff in Ea as [Ea|Ea]);
    rewrite ?andb_true_iff, ?N.leb_le, ?N.eqb_eq in Ea; lia.
Qed.

Lemma sanitize_char_allowed (c : N) :
  allowed (N_of_ascii (if allowed c then ascii_of_N c else "_"%char)) = true.
Proof.
  destruct (allowed c) eqn:Ea; [|done].
  destruct (allowed_byte c Ea) as [Hc _]. by rewrite N_ascii_embedding.
Qed.

(** X13. A sanitized value has one character per code point of the
    text, every one of them a letter, a digit, an underscore or a
    hyphen (so neither a dot nor a path separator); allowed characters
    are kept, and sanitizing a sanitized value changes nothing. *)
Theorem sanitize_safe (text : list N) :
  String.length (sanitize text) = length text ∧
  Forall (λ c, allowed (N_of_ascii c) = true ∧ c ≠ "."%char ∧ c ≠ "/"%char)
         (list_ascii_of_string (sanitize text)) ∧
  (Forall (λ c, allowed c = true) text →
   list_ascii_of_string (sanitize text) = ascii_of_N <$> text) ∧
  sanitize (N_of_ascii <$> list_ascii_of_string (sanitize text)) = sanitize text.
Proof.
  split_and!.
  - induction text as [|c text IH]; simpl; [done | by rewrite IH].
  - induction text as [|c text IH]; simpl; [constructor|].
    constructor; [|exact IH].
    pose proof (sanitize_char_allowed c) as Ha.
    split_and!; [done | |]; intros E; rewrite E in Ha; done.
  - induction 1 as [|c text Hc _ IH]; simpl; [done|]. by rewrite Hc, IH.
  - induction text as [|c text IH]; simpl; [done|].
    rewrite sanitize_char_allowed, ascii_N_embedding. f_equal. exact IH.
Qed.

(** X14. The numbers of [self.suffix] belong to file names, not to
    paths: after a number has been drawn for a name in one directory, a
    collision on the same name in any other directory draws a larger
    number, also when the smaller numbered names are free there. *)
Theorem suffix_numbers_shared_across_directories (c1 c2 : Path) (w : World)
    (Hsame : name c1 = name c2)
    (Hname : name c1 ≠ "")
    (Htaken : is_Some (disk w !! c1)) :
  ∃ k1 sfx1,
    _destination true c1 w = (Ok (candidate c1 k1), set_suffix w sfx1) ∧
    ∀ w2, suffix w2 = sfx1 → is_Some (disk w2 !! c2) →
      ∃ k2 sfx2,
        _destination true c2 w2 = (Ok (candidate c2 k2), set_suffix w2 sfx2) ∧
        k1 < k2 ∧
        name (candidate c1 k1) ≠ name (candidate c2 k2).
Proof.
  destruct (destination_spec true c1 w Hname) as (d1 & sfx1 & Hrun1 & Hpost1).
  destruct Hpost1 as [(_ & _ & Habs) | (_ & _ & k1 & Hk1 & -> & -> & _ & _)].
  { specialize (Habs eq_refl). destruct Htaken. congruence. }
  exists k1, (<[name c1 := S k1]> (suffix w)). split; [exact Hrun1|].
  intros w2 Hsfx Htaken2.
  assert (name c2 ≠ "") as Hname2 by congruence.
  destruct (destination_spec true c2 w2 Hname2) as (d2 & sfx2 & Hrun2 & Hpost2).
  destruct Hpost2 as [(_ & _ & Habs) | (_ & _ & k2 & Hk2 & -> & -> & _ & _)].
  { specialize (Habs eq_refl). destruct Htaken2. congruence. }
  exists k2, (<[name c2 := S k2]> (suffix w2)). split; [exact Hrun2|].
  assert (k1 < k2) as Hlt.
  { unfold counter in Hk2. rewrite Hsfx, <- Hsame, lookup_insert_eq in Hk2.
    simpl in Hk2. lia. }
  split; [done|]. simpl. unfold suffixed_name. rewrite <- Hsame.
  intros E. apply (suffixed_name_inj c1) in E. lia.
Qed.

End Rename.

(** * The report sinks of [gouda/scripts/decode_barcodes.py]

    [BasicReportVisitor] and [TerseReportVisitor] print to the console,
    [CSVReportVisitor] writes rows through a [csv.writer].  A printed
    line is kept as the values that are formatted into it, a row as the
    list of its fields: the text of a line and the quoting of a row are
    the work of [print], [str.format] and [csv]. *)

Module Report.

Inductive Line :=
| LPath (p : Path)
| LFound (n : nat)
| LBarcode (index : nat) (type : string) (data : bytes)
| LTerse (p : Path) (values : list bytes).

Definition Console := list Line.

Definition print (l : Line) : M Console unit := λ out, (Ok tt, out ++ [l]).

Definition lift_res {S A} (r : Res A) : M S A := λ s, (r, s).

(** [for index, barcode in enumerate(barcodes): print(...)], from
    [index] on. *)
Fixpoint enumerate_loop (index : nat) (barcodes : list Barcode) : M Console unit :=
  match barcodes with
  | [] => mret tt
  | barcode :: barcodes' =>
      _ ← print (LBarcode index (b_type barcode) (b_data barcode));
      enumerate_loop (S index) barcodes'
  end.

(** [BasicReportVisitor.result]: the path is printed before the result
    is unpacked. *)
Definition basic_result (path : Path) (result : Driver.PyResult) : M Console unit :=
  _ ← print (LPath path);
  match result with
  | Driver.PyNone => raise "TypeError: cannot unpack non-iterable NoneType object"
  | Driver.PySeq strategy barcodes =>
      _ ← print (LFound (length barcodes));
      enumerate_loop 0 barcodes
  end.

(** [TerseReportVisitor.result]. *)
Definition terse_result (path : Path) (result : Driver.PyResult) : M Console unit :=
  match result with
  | Driver.PyNone => raise "TypeError: cannot unpack non-iterable NoneType object"
  | Driver.PySeq strategy barcodes => print (LTerse path (b_data <$> barcodes))
  end.

(** The paths that head the reports of a console. *)
Definition reported (out : Console) : list Path :=
  omap (λ l, match l with LPath p => Some p | _ => None end) out.

(** The files that a plan processes: those before the first stop (a
    directory that cannot be listed, an entry whose [is_dir()]
    raises). *)
Fixpoint processed (steps : list Driver.Step) : list Path :=
  match steps with
  | [] => []
  | Driver.Process p :: steps' => p :: processed steps'
  | Driver.Abort _ :: _ => []
  end.

(** ** The CSV sink *)

Section CSV.
(** [Time] is what [time.time()] returns; [time n] is the reading of
    the clock when it has been read [n] times before. *)
Context {Time : Type}.
Variable platform : string.
Variable time : nat → Time.
(** [bytes.decode()]: the text as code points, or [UnicodeDecodeError];
    barcode data are [bytes], so [hasattr(b.data, 'decode')] holds. *)
Variable bytes_decode : bytes → Res (list N).

(** A field of a row, as passed to [writerow]: a byte string, a text, a
    number, the difference of two clock readings, the strategy name or
    [None], and [path.parent.name], kept as the parts of the parent. *)
Inductive Field :=
| FStr (s : string)
| FText (t : list N)
| FInt (n : nat)
| FElapsed (now start : Time)
| FStrategy (s : option string)
| FParentName (parent_parts : list string).

(** The file that the writer writes to, and the clock. *)
Record Stream := mkStream { written : list (list Field); reads : nat }.

(** The attributes of a [CSVReportVisitor]. *)
Record CSVReportVisitor := mkCSV {
  engine : string;
  image_conversion : string;
  start_time : Time
}.

Definition writerow (row : list Field) : M Stream unit := λ o,
  (Ok tt, {| written := written o ++ [row]; reads := reads o |}).

Definition time_time : M Stream Time := λ o,
  (Ok (time (reads o)), {| written := written o; reads := S (reads o) |}).

Definition header : list Field :=
  [FStr "OS"; FStr "Engine"; FStr "Directory"; FStr "File";
   FStr "Image.conversion"; FStr "Elapsed"; FStr "N.found"; FStr "Types";
   FStr "Values"; FStr "Strategy"].

(** [CSVReportVisitor.__init__]. *)
Definition csv_init (engine_name : string) (greyscale : bool) :
    M Stream CSVReportVisitor :=
  _ ← writerow header;
  start ← time_time;
  mret {| engine := engine_name;
          image_conversion := if greyscale then "Greyscale" else "Unchanged";
          start_time := start |}.

(** ['|'.join(texts)] on texts of code points; [124] is the bar. *)
Fixpoint join_text (texts : list (list N)) : list N :=
  match texts with
  | [] => []
  | [t] => t
  | t :: texts' => t ++ 124%N :: join_text texts'
  end.

(** The generator [b.data.decode() for b in barcodes], consumed by
    [join]: the first data that do not decode raise. *)
Definition decoded (barcodes : list Barcode) : Res (list (list N)) :=
  mapM (λ b, bytes_decode (b_data b)) barcodes.

(** [CSVReportVisitor.result]. *)
Definition csv_result (self : CSVReportVisitor) (path : Path)
    (result : Driver.PyResult) : M Stream unit :=
  match result with
  | Driver.PyNone => raise "TypeError: cannot unpack non-iterable NoneType object"
  | Driver.PySeq strategy barcodes =>
      let types := String.concat "|" (b_type <$> barcodes) in
      texts ← lift_res (decoded barcodes);
      let values := join_text texts in
      now ← time_time;
      writerow [FStr platform; FStr (engine self); FParentName (parent path);
                FStr (name path); FStr (image_conversion self);
                FElapsed now (start_time self); FInt (length barcodes);
                FStr types; FText values; FStrategy strategy]
  end.

(** The streams of a writer's life: a visitor made on an empty file,
    then any calls of [result], whatever they return. *)
Inductive session (self : CSVReportVisitor) : Stream → Prop :=
| session_init engine_name greyscale o o' :
    written o = [] →
    csv_init engine_name greyscale o = (Ok self, o') →
    session self o'
| session_result o path result :
    session self o →
    session self (csv_result self path result o).2.

(** The rows of a report: as many fields as the header, the engine and
    the image conversion of the visitor in their columns. *)
Definition row_of (self : CSVReportVisitor) (row : list Field) : Prop :=
  length row = length header ∧
  row !! 1 = Some (FStr (engine self)) ∧
  row !! 4 = Some (FStr (image_conversion self)).

Lemma csv_result_rows (self : CSVReportVisitor) (path : Path)
    (result : Driver.PyResult) (o : Stream) :
  match csv_result self path result o with
  | (Ok _, o') => ∃ row, written o' = written o ++ [row] ∧ row_of self row ∧
                         row !! 3 = Some (FStr (name path))
  | (Raise _, o') => o' = o
  end.
Proof.
  destruct result as [|strategy barcodes]; simpl; [done|].
  unfold mbind, M_bind, lift_res.
  destruct (decoded barcodes) as [texts|e]; simpl; [|done].
  eexists. split; [reflexivity|]. by repeat split.
Qed.

(** X15. A CSV report is rectangular: from the moment the visitor is
    made on an empty file, and after any calls of [result], whether
    they return or raise, the file holds the header followed by rows
    that all have as many fields as the header, with the engine and the
    image conversion of the visitor in the columns of that name. *)
Theorem csv_report_rectangular (self : CSVReportVisitor) (o : Stream)
    (Hsession : session self o) :
  ∃ body, written o = header :: body ∧ Forall (row_of self) body.
Proof.
  induction Hsession as [engine_name greyscale o o' Hempty Hinit
                        | o path result _ (body & Hbody & Hrows)].
  - unfold csv_init, mbind, M_bind, writerow, time_time in Hinit. simpl in Hinit.
    injection Hinit as _ <-. simpl. rewrite Hempty. by exists [].
  - pose proof (csv_result_rows self path result o) as Hstep.
    destruct (csv_result self path result o) as [[[]|e] o']; simpl.
    + destruct Hstep as (row & -> & Hrow & _).
      exists (body ++ [row]). rewrite Hbody. split; [done|].
      apply Forall_app. split; [done|]. by constructor.
    + subst o'. eauto.
Qed.

End CSV.

(** ** What the console sinks print *)

Lemma enumerate_loop_lines (index : nat) (barcodes : list Barcode) (out : Console) :
  enumerate_loop index barcodes out =
    (Ok tt, out ++ imap (λ i b, LBarcode (index + i) (b_type b) (b_data b)) barcodes).
Proof.
  revert index out. induction barcodes as [|b bs IH]; intros index out; simpl.
  - by rewrite app_nil_r.
  - unfold mbind, M_bind, print. rewrite IH. rewrite <- app_assoc. simpl.
    rewrite Nat.add_0_r. do 3 f_equal. apply imap_ext. intros i x _. simpl.
    f_equal. lia.
Qed.

Lemma reported_barcode_lines (index : nat) (barcodes : list Barcode) :
  reported (imap (λ i b, LBarcode (index + i) (b_type b) (b_data b)) barcodes) = [].
Proof.
  revert index. induction barcodes as [|b bs IH]; intros index; [done|].
  simpl. rewrite <- (IH (S index)). unfold reported. f_equal.
  apply imap_ext. intros i x _. simpl. f_equal. lia.
Qed.

(** X16. For every outcome the driver can pass, the basic sink returns
    normally and prints the path, the number of barcodes and one line
    per barcode, numbered from 0 in the order of the outcome; the terse
    sink prints one line.  Neither looks into the data of a barcode. *)
Theorem console_reports (path : Path) (strategy : option string)
    (barcodes : list Barcode) (out : Console) :
  basic_result path (Driver.PySeq strategy barcodes) out =
    (Ok tt, out ++ LPath path :: LFound (length barcodes) ::
                   imap (λ i b, LBarcode i (b_type b) (b_data b)) barcodes) ∧
  terse_result path (Driver.PySeq strategy barcodes) out =
    (Ok tt, out ++ [LTerse path (b_data <$> barcodes)]) ∧
  reported (basic_result path (Driver.PySeq strategy barcodes) out).2 =
    reported out ++ [path].
Proof.
  assert (basic_result path (Driver.PySeq strategy barcodes) out =
            (Ok tt, out ++ LPath path :: LFound (length barcodes) ::
                           imap (λ i b, LBarcode i (b_type b) (b_data b)) barcodes))
    as Hbasic.
  { unfold basic_result, mbind, M_bind, print. simpl.
    rewrite enumerate_loop_lines. by rewrite <- !app_assoc. }
  split_and!; [exact Hbasic | done |].
  rewrite Hbasic. simpl. unfold reported. rewrite omap_app. simpl.
  f_equal. f_equal. apply (reported_barcode_lines 0).
Qed.

Lemma basic_result_reported (path : Path) (strategy : option string)
    (barcodes : list Barcode) (out : Console) :
  ∃ out', basic_result path (Driver.PySeq strategy barcodes) out = (Ok tt, out') ∧
          reported out' = reported out ++ [path].
Proof.
  unfold basic_result, mbind, M_bind, print. simpl.
  rewrite enumerate_loop_lines. eexists. split; [reflexivity|].
  unfold reported. rewrite <- !app_assoc, omap_app. simpl. f_equal. f_equal.
  apply (reported_barcode_lines 0).
Qed.

(** ** The basic report of a run *)

Section Run.
Context {Image Engine : Type}.
Variable read_image : Path → bool → M Console (option Image).
Variable strategies : list (Driver.Strategy (W := Console) (Image := Image)
                                            (Engine := Engine)).
Variable engine : Engine.
Variable read_greyscale : bool.

(** The loader and the strategies return without printing. *)
Definition quiet_loader : Prop :=
  ∀ p out, ∃ img, read_image p read_greyscale out = (Ok img, out).

Definition quiet_strategies : Prop :=
  Forall (λ strategy : Driver.Strategy, ∀ img out,
            ∃ r, strategy img engine out = (Ok r, out)) strategies.

Lemma strategy_loop_quiet (ss : list Driver.Strategy) (img : Image) (out : Console) :
  Forall (λ strategy : Driver.Strategy, ∀ img out,
            ∃ r, strategy img engine out = (Ok r, out)) ss →
  ∃ strategy barcodes,
    Driver.strategy_loop engine ss img out =
      (Ok (Driver.PySeq strategy barcodes), out).
Proof.
  induction 1 as [|st ss Hst _ IH]; simpl; [by eauto|].
  unfold mbind, M_bind. destruct (Hst img out) as (r & ->).
  destruct r as [|strategy barcodes]; simpl; [exact IH | eauto].
Qed.

Lemma process_file_reported (p : Path) (s : Driver.State) :
  quiet_loader → quiet_strategies →
  ∃ s', Driver.process_file read_image strategies engine [basic_result]
          read_greyscale p s = (Ok tt, s') ∧
        reported (Driver.world s') = reported (Driver.world s) ++ [p].
Proof.
  intros Hload Hstrategies.
  rewrite Driver.process_file_outcome.
  unfold try_except, mbind, M_bind, Driver.lift.
  destruct (Hload p (Driver.world s)) as (img & ->). simpl.
  assert (∃ strategy barcodes,
            Driver.outcome_of strategies engine img (Driver.world s) =
              (Ok (Driver.PySeq strategy barcodes), Driver.world s))
    as (strategy & barcodes & ->).
  { destruct img as [img|]; simpl; [|by eauto].
    by apply strategy_loop_quiet. }
  destruct (basic_result_reported p strategy barcodes (Driver.world s))
    as (out' & Hbasic & Hrep).
  simpl. unfold mbind, M_bind, Driver.emit, Driver.lift. simpl.
  rewrite Hbasic. simpl. eauto.
Qed.

(** X17. With a loader and strategies that return without printing,
    the basic report of a run of [decode] has one path line for every
    file that the run reaches, in the order of the traversal: depth
    first, every listing sorted, up to the first directory that cannot
    be listed or entry whose [is_dir()] raises. *)
Theorem basic_report_in_traversal_order (paths : Res (list Driver.Entry))
    (s : Driver.State)
    (Hload : quiet_loader) (Hstrategies : quiet_strategies) :
  reported (Driver.world
              (Driver.decode read_image strategies engine [basic_result]
                 read_greyscale paths s).2) =
    reported (Driver.world s) ++ processed (Driver.plan_of paths).
Proof.
  rewrite Driver.decode_plan. generalize (Driver.plan_of paths). intros steps.
  revert s. induction steps as [|st steps IH]; intros s; simpl.
  - by rewrite app_nil_r.
  - unfold mbind, M_bind. destruct st as [p|ex]; simpl.
    + destruct (process_file_reported p s Hload Hstrategies) as (s' & -> & Hrep).
      rewrite IH, Hrep, <- app_assoc. done.
    + by rewrite app_nil_r.
Qed.

End Run.

(** ** Data that do not decode *)

Lemma mapM_raises {A B} (f : A → Res B) (l : list A) (x : A) (e : Exn) :
  x ∈ l → f x = Raise e → ∃ e', mapM f l = Raise e'.
Proof.
  intros Hin Hx. induction l as [|y l IH]; [by apply elem_of_nil in Hin|].
  change (mapM f (y :: l)) with (b ← f y; k ← mapM f l; mret (b :: k)).
  destruct (f y) as [b|e1] eqn:Hy; [|by exists e1].
  apply elem_of_cons in Hin as [->|Hin]; [congruence|].
  destruct (IH Hin) as (e' & ->). by exists e'.
Qed.

(** X18. A barcode whose data do not decode as text is reported by the
    basic and the terse sink, which print the data as they are; the CSV
    sink and the rename sink raise on it: no row is written and the
    clock is not read, no file is renamed or copied, and only the path
    has been printed. *)
Theorem undecodable_data_by_sink {Time : Type} (platform : string)
    (time : nat → Time) (bytes_decode : bytes → Res (list N))
    (self : CSVReportVisitor (Time := Time)) (path : Path)
    (strategy : option string) (barcodes : list Barcode) (b : Barcode) (e : Exn)
    (Hin : b ∈ barcodes)
    (Hdata : bytes_decode (b_data b) = Raise e) :
  (∀ out, (basic_result path (Driver.PySeq strategy barcodes) out).1 = Ok tt) ∧
  (∀ out, (terse_result path (Driver.PySeq strategy barcodes) out).1 = Ok tt) ∧
  (∃ e', ∀ o, csv_result platform time bytes_decode self path
                (Driver.PySeq strategy barcodes) o = (Raise e', o)) ∧
  (∃ e', ∀ avoid w, Rename.result bytes_decode avoid path
                      (Driver.PySeq strategy barcodes) w =
                    (Raise e', Rename.say w (Rename.LPath path))).
Proof.
  split_and!.
  - intros out. unfold basic_result, mbind, M_bind, print. simpl.
    by rewrite enumerate_loop_lines.
  - done.
  - destruct (mapM_raises (λ b, bytes_decode (b_data b)) barcodes b e Hin Hdata)
      as (e' & He').
    exists e'. intros o. unfold csv_result, mbind, M_bind, lift_res, decoded.
    by rewrite He'.
  - destruct (mapM_raises (λ b, text ← bytes_decode (b_data b);
                                mret (Rename.sanitize text)) barcodes b e Hin)
      as (e' & He').
    { unfold mbind, Res_bind. by rewrite Hdata. }
    exists e'. intros avoid w. unfold Rename.result, mbind, M_bind, Rename.print.
    destruct barcodes as [|b0 bs]; [by apply elem_of_nil in Hin|].
    unfold Rename.lift_res, Rename.values_of. by rewrite He'.
Qed.

End Report.

(** * Runs on concrete inputs *)

(** ** The region decoder on a one-row image *)
Module RoiRun.
Import Roi.
Local Open Scope Z_scope.

Definition found : Symbol := mkSymbol "QRCODE" (String.list_byte_of_string "X").

(** An engine that reads a symbol only when the first pixel is white;
    its state counts the calls. *)
Definition white_engine (img : ndarray) (n : nat) : Res (list Symbol) * nat :=
  (Ok match rows img with
      | (255 :: _) :: _ => [found]
      | _ => []
      end, S n).

(** Stand-ins for the OpenCV calls that return their first argument. *)
Definition same_grey (a : ndarray) : Res ndarray := Ok a.
Definition same_blur (a : ndarray) (ksize : Z * Z) (sigma : Z) : Res ndarray := Ok a.
Definition same_weighted (a : ndarray) (alpha : Q) (b : ndarray) (beta : Q)
    (gamma : Z) : Res ndarray := Ok a.
Definition untouched (a : ndarray) : Res ndarray := Ok a.

Definition strip : ndarray :=
  {| dtype := "uint8"; shape := [1; 3]%nat; rows := [[250; 10; 127]] |}.
Definition whole : Rect := {| left := 0; top := 0; right := 3; bottom := 1 |}.
Definition fresh : EngineState := {| engine_state := 0%nat; calls := [] |}.

(** A crop one pixel wide and four pixels high. *)
Definition column : ndarray :=
  {| dtype := "uint8"; shape := [4; 1]%nat; rows := [[250]; [10]; [127]; [3]] |}.
Definition upright : Rect := {| left := 0; top := 0; right := 1; bottom := 4 |}.



(** The crop of the last two pixels of [strip]. *)
Lemma crop_in_bounds_run :
  Forall (λ row : list Z, length row = 3%nat) (rows strip) ∧
  rows (crop2d strip 0 1 1 3) = [[10; 127]] ∧
  pixel (crop2d strip 0 1 1 3) 0 1 = pixel strip 0 2.
Proof.
  assert (Forall (λ row : list Z, length row = 3%nat) (rows strip)) as Hrows
    by (repeat constructor).
  split; [exact Hrows|]. split; [reflexivity|].
  destruct (crop_in_bounds strip {| left := 1; top := 0; right := 3; bottom := 1 |}
              3 Hrows ltac:(simpl; lia) ltac:(simpl; lia)) as (_ & _ & H).
  exact (H 0%nat 1%nat ltac:(simpl; lia) ltac:(simpl; lia)).
Defined.

Example remap_boundaries :
  remap_spec <$> [0; 89; 90; 127; 128; 239; 240; 255] =
  [0; 0; 0; 37; 144; 255; 255; 255].
Proof. reflexivity. Qed.

(** The first iteration of a decoder whose only candidate is the
    column raises, and the decoder is left without a sequence. *)
Example first_iteration_raises :
  __iter__ white_engine same_grey same_blur same_weighted untouched
    (init column [upright]) fresh =
  (Raise "cv2.error: the output array type must be explicitly specified",
   {| engine_state := 1%nat; calls := [(column, Ok [])] |}).
Proof. reflexivity. Qed.

Example two_candidates_in_order :
  (__iter__ white_engine same_grey same_blur same_weighted untouched
     (init strip [whole; {| left := 1; top := 0; right := 3; bottom := 1 |}])
     fresh).1 =
  Ok ([to_barcode found],
      {| _img := strip;
         _candidates := [whole; {| left := 1; top := 0; right := 3; bottom := 1 |}];
         _barcodes := Some [to_barcode found] |}).
Proof. reflexivity. Qed.

End RoiRun.

(** ** The driver on small trees *)
Module DriverRun.
Import Driver.

(** The world is the console; an image is a number; the engine has
    nothing to it. *)
Definition Console := list string.

Definition loader (p : Path) (greyscale : bool) : M Console (option nat) := λ w,
  if String.eqb (name p) "broken.png" then (Raise "cannot identify image", w)
  else if String.eqb (name p) "notes.txt" then (Ok None, w)
  else (Ok (Some 0), w).

Definition code : Barcode := mkBarcode "QRCODE" (String.list_byte_of_string "X").

Definition declining : Strategy (W := Console) (Image := nat) (Engine := unit) :=
  λ img engine w, (Ok PyNone, w ++ ["resize: nothing"]).
Definition empty_handed : Strategy (W := Console) (Image := nat) (Engine := unit) :=
  λ img engine w, (Ok (PySeq (Some "resize") []), w ++ ["resize: no barcodes"]).
Definition finding : Strategy (W := Console) (Image := nat) (Engine := unit) :=
  λ img engine w, (Ok (PySeq (Some "roi") [code]), w ++ ["roi: one barcode"]).

Definition reporting (tag : string) : Visitor (W := Console) :=
  λ p r w, (Ok tt, w ++ [tag +:+ name p]).
Definition failing : Visitor (W := Console) :=
  λ p r w, (Raise "disk full", w).

Definition start : State (W := Console) := {| world := []; trace := [] |}.

Definition locked : Path := {| parent := ["scans"]; name := "a_locked" |}.
Definition broken : Path := {| parent := ["scans"]; name := "broken.png" |}.
Definition notes : Path := {| parent := ["scans"]; name := "notes.txt" |}.
Definition page : Path := {| parent := ["scans"]; name := "page.png" |}.

(** A strategy returns an outcome with no barcodes and a name; the
    chain stops there and [finding] is never called. *)
Lemma empty_outcome_ends_chain :
  empty_handed 0 tt [] = (Ok (PySeq (Some "resize") []), ["resize: no barcodes"]) ∧
  strategy_loop tt [empty_handed; finding] 0 [] =
    (Ok (PySeq (Some "resize") []), ["resize: no barcodes"]) ∧
  strategy_loop tt [finding] 0 ["resize: no barcodes"] =
    (Ok (PySeq (Some "roi") [code]), ["resize: no barcodes"; "roi: one barcode"]).
Proof. split_and!; reflexivity. Qed.

Lemma first_outcome_is_final_run :
  all_decline tt 0 [declining] [] ["resize: nothing"] ∧
  strategy_loop tt ([declining] ++ empty_handed :: [finding]) 0 [] =
    (Ok (PySeq (Some "resize") []), ["resize: nothing"; "resize: no barcodes"]).
Proof.
  assert (all_decline tt 0 [declining] [] ["resize: nothing"]) as Hd.
  { eapply decline_cons; [reflexivity | reflexivity | apply decline_nil]. }
  split; [exact Hd|].
  exact (proj1 (first_outcome_is_final tt 0 [declining] [finding] empty_handed
                  [] ["resize: nothing"] ["resize: nothing"; "resize: no barcodes"]
                  (Some "resize") [] Hd eq_refl)).
Defined.





(** A tree listed in two orders. *)
Definition inner : Path := {| parent := ["scans"; "box"]; name := "z.png" |}.
Definition other : Path := {| parent := ["scans"; "box"]; name := "b.png" |}.
Definition box : Path := {| parent := ["scans"]; name := "box" |}.

Definition listing1 : list Entry :=
  [File page; Dir box (Ok [File inner; File other]); File notes].
Definition listing2 : list Entry :=
  [File notes; File page; Dir box (Ok [File other; File inner])].

Lemma traversal_sorted_deterministic_run :
  decode loader [finding] tt [reporting "basic "] false (Ok listing1) start =
  decode loader [finding] tt [reporting "basic "] false (Ok listing2) start ∧
  sorted_by entry_path listing1 =
    [Dir box (Ok [File inner; File other]); File notes; File page].
Proof.
  assert (NoDup (entry_path <$> listing1)) as Hnd.
  { apply (bool_decide_unpack _). vm_compute. exact I. }
  assert (Forall distinct_paths listing1) as Hd.
  { constructor; [constructor|]. constructor; [|repeat constructor].
    constructor; [|repeat constructor].
    apply (bool_decide_unpack _). vm_compute. exact I. }
  assert (listing1 ≡ₚ [File notes; File page; Dir box (Ok [File inner; File other])])
    as Hp.
  { unfold listing1.
    etrans; [apply perm_skip, perm_swap|]. apply perm_swap. }
  assert (Forall2 same_tree
            [File notes; File page; Dir box (Ok [File inner; File other])]
            listing2) as Hs.
  { repeat constructor. eapply same_listed; [apply perm_swap|].
    repeat constructor. }
  destruct (traversal_sorted_deterministic loader [finding] tt [reporting "basic "]
              false listing1 _ listing2 start Hnd Hd Hp Hs)
    as (_ & _ & _ & _ & H & _).
  split; [exact H | reflexivity].
Defined.

Example sorted_by_parts :
  path_ltb {| parent := ["a"]; name := "b" |} {| parent := []; name := "a-b" |} = true.
Proof. reflexivity. Qed.

End DriverRun.

(** ** The rename sink on a small disk *)
Module RenameRun.
Import Rename.

(** [bytes.decode] on ASCII payloads: one code point per byte; a byte
    outside ASCII is refused. *)
Definition decode_ascii (b : bytes) : Res (list N) :=
  if forallb (λ x, (Byte.to_N x <? 128)%N) b then Ok (Byte.to_N <$> b)
  else Raise "UnicodeDecodeError".

Definition barcode (payload : string) : Barcode :=
  mkBarcode "QRCODE" (String.list_byte_of_string payload).

Definition scan1 : Path := {| parent := ["scans"]; name := "img001.png" |}.
Definition scan2 : Path := {| parent := ["scans"]; name := "img002.png" |}.
Definition photo1 : Path := {| parent := ["photos"]; name := "p1.jpg" |}.
Definition photo2 : Path := {| parent := ["photos"]; name := "p2.jpg" |}.
Definition in_dir (dir nm : string) : Path := {| parent := [dir]; name := nm |}.

Definition data1 : FileData := mkFile (String.list_byte_of_string "first") 11.
Definition data2 : FileData := mkFile (String.list_byte_of_string "second") 22.

Definition shelf : World :=
  {| disk := <[scan1 := data1]> (<[scan2 := data2]>
             (<[photo1 := data1]> (<[photo2 := data2]> ∅)));
     suffix := ∅; stdout := []; ops := [] |}.

Example sanitize_payload :
  values_of decode_ascii [barcode "He@llo!"] = Ok ["He_llo_"].
Proof. reflexivity. Qed.

Example names_of_a_path :
  stem_of "img001.png" = "img001" ∧ suffix_of "img001.png" = ".png" ∧
  suffix_of ".hidden" = "" ∧ suffix_of "archive.tar.gz" = ".gz" ∧
  suffixed_name (in_dir "photos" "X.jpg") 1 = "X-1.jpg".
Proof. split_and!; reflexivity. Qed.

(** The file with barcodes "A" and "B": renamed to [A.png], which is
    then copied to [B.png]; nothing is left at the original path. *)
Example rename_then_copy :
  ∃ w', result decode_ascii false scan1
          (Driver.PySeq (Some "roi") [barcode "A"; barcode "B"]) shelf = (Ok tt, w') ∧
        ops w' = [OpRename scan1 (in_dir "scans" "A.png");
                  OpCopy2 (in_dir "scans" "A.png") (in_dir "scans" "B.png")] ∧
        stdout w' = [LPath scan1; LRenamed (in_dir "scans" "A.png");
                     LCopied (in_dir "scans" "B.png")] ∧
        disk w' !! scan1 = None ∧
        disk w' !! in_dir "scans" "A.png" = Some data1 ∧
        disk w' !! in_dir "scans" "B.png" = Some data1.
Proof. eexists. split_and!; [vm_compute; reflexivity | reflexivity..]. Qed.


(** [A.png] exists already and collisions are not avoided: the source
    is not renamed and stays at its path, and what is copied to [B.png]
    is the [A.png] that was there. *)
Definition crowded : World :=
  {| disk := <[in_dir "scans" "A.png" := data2]> (disk shelf);
     suffix := ∅; stdout := []; ops := [] |}.


(** Two photos whose only barcode is "X": [X.jpg], then [X-1.jpg]. *)
Example same_value_twice :
  ∃ w', (_ ← result decode_ascii true photo1 (Driver.PySeq (Some "roi") [barcode "X"]);
         result decode_ascii true photo2 (Driver.PySeq (Some "roi") [barcode "X"]))
          shelf = (Ok tt, w') ∧
        ops w' = [OpRename photo1 (in_dir "photos" "X.jpg");
                  OpRename photo2 (in_dir "photos" "X-1.jpg")] ∧
        suffix w' !! "X.jpg" = Some 2.
Proof. eexists. split_and!; [vm_compute; reflexivity | reflexivity..]. Qed.

Definition taken : World :=
  {| disk := <[in_dir "photos" "X.jpg" := data1]>
             (<[in_dir "photos" "X-3.jpg" := data2]> ∅);
     suffix := {[ "X.jpg" := 3 ]}; stdout := []; ops := [] |}.


(** The driver with the rename sink as its only visitor, on a
    directory listed in reverse order: the photos are visited in sorted
    order and renamed [X.jpg], then [X-1.jpg]. *)
Example run_with_rename_sink :
  ∃ s', Driver.decode (W := World) (Image := unit) (Engine := unit)
          (λ p greyscale w, (Ok (Some tt), w))
          [λ img engine w, (Ok (Driver.PySeq (Some "roi") [barcode "X"]), w)]
          tt [result decode_ascii true] false
          (Ok [Driver.Dir (in_dir "." "photos")
                 (Ok [Driver.File photo2; Driver.File photo1])])
          {| Driver.world := shelf; Driver.trace := [] |} = (Ok tt, s') ∧
        ops (Driver.world s') =
          [OpRename photo1 (in_dir "photos" "X.jpg");
           OpRename photo2 (in_dir "photos" "X-1.jpg")].
Proof. eexists. split; [vm_compute; reflexivity | reflexivity]. Qed.

Example numbered_past_the_taken :
  (_destination true (in_dir "photos" "X.jpg") taken).1 =
    Ok (in_dir "photos" "X-4.jpg").
Proof. vm_compute. reflexivity. Qed.

(** [img001.png] carries the barcode "img002", and [img002.png]
    exists: nothing is renamed. *)
Lemma existing_destination_skipped_run :
  disk shelf !! plain scan1 "img002" = Some data2 ∧
  result decode_ascii false scan1 (Driver.PySeq (Some "roi") [barcode "img002"]) shelf =
    (Ok tt, {| disk := disk shelf; suffix := ∅;
               stdout := [LPath scan1; LCannotRename scan2]; ops := [] |}).
Proof.
  split; [reflexivity|].
  exact (existing_destination_skipped decode_ascii scan1 (Some "roi")
           (barcode "img002") "img002" data1 data2 shelf
           eq_refl eq_refl ltac:(discriminate) ltac:(discriminate) eq_refl
           ltac:(discriminate)).
Defined.

(** [img001.png] becomes [A.png]; a second pass over [A.png] finds it
    correctly named. *)
Lemma rename_twice_is_once_run :
  sanitize [65%N] ≠ "" ∧
  ∃ w1,
    result decode_ascii false scan1 (Driver.PySeq (Some "roi") [barcode "A"]) shelf =
      (Ok tt, w1) ∧
    ops w1 = [OpRename scan1 (in_dir "scans" "A.png")] ∧
    result decode_ascii false (in_dir "scans" "A.png")
      (Driver.PySeq (Some "roi") [barcode "A"]) w1 =
      (Ok tt, {| disk := disk w1; suffix := suffix w1;
                 stdout := stdout w1 ++ [LPath (in_dir "scans" "A.png"); LAlreadyNamed];
                 ops := ops w1 |}).
Proof.
  assert (sanitize [65%N] ≠ "") as Hv by discriminate.
  split; [exact Hv|].
  destruct (rename_twice_is_once decode_ascii scan1 (Some "roi") (barcode "A")
              [65%N] data1 shelf eq_refl Hv eq_refl ltac:(discriminate) eq_refl)
    as (w1 & H1 & H2 & _ & H3).
  exists w1. split_and!; [exact H1 | exact H2 | exact H3].
Defined.

(** [X.jpg] carries the barcode "X" already; with collision avoidance
    it is renamed to [X-4.jpg], the numbers up to 3 being used up. *)
Lemma avoidance_renames_named_file_run :
  plain (in_dir "photos" "X.jpg") "X" = in_dir "photos" "X.jpg" ∧
  ∃ k, 3 ≤ k ∧
       (result decode_ascii true (in_dir "photos" "X.jpg")
          (Driver.PySeq (Some "roi") [barcode "X"]) taken).1 = Ok tt ∧
       ops (result decode_ascii true (in_dir "photos" "X.jpg")
              (Driver.PySeq (Some "roi") [barcode "X"]) taken).2 =
         [OpRename (in_dir "photos" "X.jpg") (candidate (in_dir "photos" "X.jpg") k)].
Proof.
  split; [reflexivity|].
  destruct (avoidance_renames_named_file decode_ascii (in_dir "photos" "X.jpg")
              (Some "roi") (barcode "X") "X" data1 taken
              eq_refl eq_refl ltac:(discriminate) eq_refl)
    as (k & Hk & _ & Hrun).
  exists k. rewrite Hrun. split_and!; [exact Hk | reflexivity | reflexivity].
Defined.

(** [img001.png] carries "img002" and "B": the rename to the existing
    [img002.png] is refused, and it is [img002.png] that is copied to
    [B.png]. *)
Lemma skipped_rename_copies_other_file_run :
  disk shelf !! scan2 = Some data2 ∧
  result decode_ascii false scan1
    (Driver.PySeq (Some "roi") [barcode "img002"; barcode "B"]) shelf =
    (Ok tt, {| disk := <[in_dir "scans" "B.png" := data2]> (disk shelf);
               suffix := ∅;
               stdout := [LPath scan1; LCannotRename scan2;
                          LCopied (in_dir "scans" "B.png")];
               ops := [OpCopy2 scan2 (in_dir "scans" "B.png")] |}).
Proof.
  split; [reflexivity|].
  exact (skipped_rename_copies_other_file decode_ascii scan1 (Some "roi")
           (barcode "img002") (barcode "B") "img002" "B" data1 data2 shelf
           eq_refl eq_refl ltac:(discriminate) ltac:(discriminate)
           ltac:(discriminate) eq_refl ltac:(discriminate) eq_refl).
Defined.

(** The number drawn for [photos/X.jpg] is passed by the one drawn
    later for [scans/X.jpg]. *)
Lemma suffix_numbers_shared_across_directories_run :
  is_Some (disk taken !! in_dir "photos" "X.jpg") ∧
  ∃ k1 sfx1,
    _destination true (in_dir "photos" "X.jpg") taken =
      (Ok (candidate (in_dir "photos" "X.jpg") k1), set_suffix taken sfx1) ∧
    ∀ w2, suffix w2 = sfx1 → is_Some (disk w2 !! in_dir "scans" "X.jpg") →
      ∃ k2 sfx2,
        _destination true (in_dir "scans" "X.jpg") w2 =
          (Ok (candidate (in_dir "scans" "X.jpg") k2), set_suffix w2 sfx2) ∧
        k1 < k2 ∧
        name (candidate (in_dir "photos" "X.jpg") k1) ≠
          name (candidate (in_dir "scans" "X.jpg") k2).
Proof.
  assert (is_Some (disk taken !! in_dir "photos" "X.jpg")) as Htaken
    by (exists data1; reflexivity).
  split; [exact Htaken|].
  exact (suffix_numbers_shared_across_directories (in_dir "photos" "X.jpg")
           (in_dir "scans" "X.jpg") taken eq_refl ltac:(discriminate) Htaken).
Defined.

End RenameRun.

(** ** The report sinks on small inputs *)

Module ReportRun.
Import Report.

Definition page : Path := {| parent := ["scans"]; name := "page.png" |}.
Definition cover : Path := {| parent := ["scans"]; name := "cover.png" |}.
Definition code : Barcode := mkBarcode "QRCODE" (String.list_byte_of_string "X").
(** Data that are not text: the single byte [0xff]. *)
Definition raw : Barcode := mkBarcode "CODE128" [Byte.xff].

Definition empty_file : Stream (Time := nat) := {| written := []; reads := 0 |}.
Definition zbar : CSVReportVisitor (Time := nat) :=
  {| engine := "zbar"; image_conversion := "Unchanged"; start_time := 0 |}.

Example basic_lines :
  basic_result page (Driver.PySeq (Some "roi") [code; raw]) [] =
    (Ok tt, [LPath page; LFound 2;
             LBarcode 0 "QRCODE" (String.list_byte_of_string "X");
             LBarcode 1 "CODE128" [Byte.xff]]) ∧
  basic_result page Driver.PyNone [] =
    (Raise "TypeError: cannot unpack non-iterable NoneType object", [LPath page]).
Proof. split; reflexivity. Qed.

Example csv_row :
  written ((self ← csv_init id "zbar" false;
            csv_result "linux" id RenameRun.decode_ascii self page
              (Driver.PySeq (Some "roi") [code; code])) empty_file).2 =
    [header;
     [FStr "linux"; FStr "zbar"; FParentName ["scans"]; FStr "page.png";
      FStr "Unchanged"; FElapsed 1 0; FInt 2; FStr "QRCODE|QRCODE";
      FText [88; 124; 88]%N; FStrategy (Some "roi")]].
Proof. reflexivity. Qed.

Lemma csv_report_rectangular_run :
  ∃ body,
    written (csv_result "linux" id RenameRun.decode_ascii zbar page
               (Driver.PySeq (Some "roi") [code])
               (csv_init id "zbar" false empty_file).2).2 = header :: body ∧
    Forall (row_of zbar) body.
Proof.
  apply (csv_report_rectangular "linux" id RenameRun.decode_ascii zbar).
  apply session_result.
  by apply (session_init "linux" id RenameRun.decode_ascii zbar "zbar" false empty_file).
Defined.

(** A loader and a strategy that print nothing. *)
Definition loader (p : Path) (greyscale : bool) : M Console (option unit) :=
  λ out, (Ok (Some tt), out).
Definition finding : Driver.Strategy (W := Console) (Image := unit) (Engine := unit) :=
  λ img engine out, (Ok (Driver.PySeq (Some "roi") [code]), out).

Lemma basic_report_in_traversal_order_run :
  quiet_loader loader false ∧ quiet_strategies [finding] tt ∧
  reported (Driver.world
              (Driver.decode loader [finding] tt [basic_result] false
                 (Ok [Driver.File page; Driver.File cover])
                 {| Driver.world := []; Driver.trace := [] |}).2) = [cover; page].
Proof.
  assert (quiet_loader loader false) as Hload by (intros p out; by eexists).
  assert (quiet_strategies [finding] tt) as Hstrategies.
  { constructor; [|constructor]. intros img out. by eexists. }
  split_and!; [exact Hload | exact Hstrategies |].
  exact (basic_report_in_traversal_order loader [finding] tt false
           (Ok [Driver.File page; Driver.File cover])
           {| Driver.world := []; Driver.trace := [] |} Hload Hstrategies).
Defined.

(** The children of a directory that can be listed but not searched
    are not reported: [is_dir()] raises on the first of them and ends
    the run, after the file sorted before the directory. *)
Example unsearchable_directory_not_reported :
  Driver.decode loader [finding] tt [basic_result] false
    (Ok [Driver.Dir {| parent := ["scans"]; name := "sub" |}
           (Ok [Driver.NoStat {| parent := ["scans"; "sub"]; name := "a.png" |}
                  "PermissionError";
                Driver.File {| parent := ["scans"; "sub"]; name := "b.png" |}]);
         Driver.File cover])
    {| Driver.world := []; Driver.trace := [] |} =
  (Raise "PermissionError",
   {| Driver.world := [LPath cover; LFound 1;
                       LBarcode 0 "QRCODE" (String.list_byte_of_string "X")];
      Driver.trace := [Driver.EvResult 0 cover (Driver.PySeq (Some "roi") [code])] |}).
Proof. reflexivity. Qed.

Lemma undecodable_data_by_sink_run :
  RenameRun.decode_ascii (b_data raw) = Raise "UnicodeDecodeError" ∧
  (∀ out, (basic_result page (Driver.PySeq (Some "roi") [code; raw]) out).1 = Ok tt) ∧
  (∃ e', ∀ o, csv_result "linux" id RenameRun.decode_ascii zbar page
                (Driver.PySeq (Some "roi") [code; raw]) o = (Raise e', o)) ∧
  (∃ e', ∀ avoid w, Rename.result RenameRun.decode_ascii avoid page
                      (Driver.PySeq (Some "roi") [code; raw]) w =
                    (Raise e', Rename.say w (Rename.LPath page))).
Proof.
  split; [reflexivity|].
  destruct (undecodable_data_by_sink "linux" id RenameRun.decode_ascii zbar page
              (Some "roi") [code; raw] raw "UnicodeDecodeError"
              ltac:(right; left) eq_refl) as (H1 & _ & H2 & H3).
  split_and!; [exact H1 | exact H2 | exact H3].
Defined.

End ReportRun.
